(** * RaphaelLineTypeBase: the base renderer of line type charts

    A shallow embedding of [src/js/plugins/raphaelLineTypeBase.js] and the
    properties of its dot styling, hover wiring and pivot cache.

    - JavaScript numbers are binary64 floats ([PrimFloat.float]); attribute
      bags and style objects are finite maps from attribute names to values.
    - Raphael elements are mutable objects. They live in a store (the paper)
      and are addressed by reference, so that [groupDots] and its pivot share
      the elements they list.
    - A method is a computation on the world (paper plus the renderer's
      fields) that returns or throws; the world it leaves behind is kept in
      both cases, as a JavaScript exception does not undo earlier writes. *)

From Stdlib Require Import Floats.PrimFloat.
From stdpp Require Import base option list strings gmap.

(** ** JavaScript values *)

Module Js.

Inductive value :=
| VUndefined
| VNumber (n : float)
| VString (s : string).

(** ToBoolean of the values above. *)
Definition truthy (v : value) : bool :=
  match v with
  | VUndefined => false
  | VNumber n => negb (is_zero n || is_nan n)
  | VString s => negb (String.eqb s "")
  end.

Inductive error := TypeError.

(** [arr[i]] on an array of JavaScript values: [undefined] out of range. *)
Definition index_value (arr : list string) (i : nat) : value :=
  match arr !! i with
  | Some s => VString s
  | None => VUndefined
  end.

End Js.
Export Js.

(** A plain object used as a bag of attributes. *)
Abbreviation obj := (gmap string value).

(** 0.3 is not a binary64 value; this is the double the literal denotes. *)
Definition num_0_3 : float := 0x1.3333333333333p-2%float.

Record Position := { left : float; top : float }.

Record Dimension := { width : float; height : float }.

Record Bound := { dimension : Dimension; position : Position }.

(** The payload of [showAnimation] and [hideAnimation]. *)
Module Data.
Record t := make { groupIndex : nat; index : nat }.
End Data.

(** ** The drawing backend (Raphael) *)

(** A reference to a Raphael element: its index in the paper. *)
Abbreviation loc := nat (only parsing).

(** A function value handed over by the chart (a callback), by name. *)
Abbreviation fn := string (only parsing).

Inductive arg :=
| ArgPosition (p : Position)
| ArgNumber (n : nat)
| ArgUndefined.

(** A call of a host function, with the arguments it received. *)
Record invocation := Invoke { callee : fn; args : list arg }.

(** The two function expressions of [_bindHoverEvent], with the variables
    they capture. *)
Inductive closure :=
| HoverIn (inCallback : fn) (position : option Position) (index groupIndex : nat)
| HoverOut (outCallback : fn).

Definition opt_arg (p : option Position) : arg :=
  match p with
  | Some p => ArgPosition p
  | None => ArgUndefined
  end.

(** Running the body of a closure: the call it makes. *)
Definition call (c : closure) : invocation :=
  match c with
  | HoverIn inCallback position index groupIndex =>
      Invoke inCallback [opt_arg position; ArgNumber index; ArgNumber groupIndex]
  | HoverOut outCallback => Invoke outCallback []
  end.

Record element := Element {
  attrs : obj;
  hovers : list (closure * closure)
}.

(** ** The world: the paper and the fields of the renderer

    There is one paper; it is the [paper] argument of the rendering
    methods. The fields are those the methods below read: a renderer that
    went through a render pass has all of them set. *)

Record world := World {
  paper : list element;
  groupDots : list (list loc);
  pivotGroupDots : option (list (list loc));
  outDotStyle : obj;
  tooltipLine : loc
}.

Definition set_paper (p : list element) (w : world) : world :=
  World p (groupDots w) (pivotGroupDots w) (outDotStyle w) (tooltipLine w).

Definition set_pivotGroupDots (d : option (list (list loc))) (w : world) : world :=
  World (paper w) (groupDots w) d (outDotStyle w) (tooltipLine w).

(** ** Computations that return or throw *)

Inductive outcome (A : Type) :=
| Returned (a : A)
| Thrown (e : error).
Arguments Returned {A} a.
Arguments Thrown {A} e.

Definition M (A : Type) : Type := world → outcome A * world.

#[export] Instance M_ret : MRet M := λ A a w, (Returned a, w).

#[export] Instance M_bind : MBind M := λ A B f m w,
  match m w with
  | (Returned a, w') => f a w'
  | (Thrown e, w') => (Thrown e, w')
  end.

Definition throw {A} (e : error) : M A := λ w, (Thrown e, w).

Definition get : M world := λ w, (Returned w, w).

Definition modify (f : world → world) : M unit := λ w, (Returned tt, f w).

(** [arr[i]] where [arr] itself may be [undefined]: reading a property of
    [undefined] is a TypeError, reading past the end gives [undefined]. *)
Definition member {A} (arr : option (list A)) (i : nat) : M (option A) :=
  match arr with
  | None => throw TypeError
  | Some l => mret (l !! i)
  end.

(** ** Raphael: circles, attributes, hover handlers *)

Module Raphael.

(** [paper.circle(x, y, r)]: a new element, with the attributes Raphael
    gives a circle. *)
Definition circle_attrs (x y r : float) : obj :=
  {[ "cx" := VNumber x; "cy" := VNumber y; "r" := VNumber r;
     "fill" := VString "none"; "stroke" := VString "#000" ]}.

Definition circle (x y r : float) : M loc := λ w,
  (Returned (length (paper w)),
   set_paper (paper w ++ [Element (circle_attrs x y r) []]) w).

(** The names Raphael takes for attributes ([Raphael._availableAttrs]);
    the paper has no custom attributes. *)
Definition availableAttrs : list string :=
  [ "arrow-end"; "arrow-start"; "blur"; "clip-rect"; "cursor"; "cx"; "cy";
    "fill"; "fill-opacity"; "font"; "font-family"; "font-size"; "font-style";
    "font-weight"; "gradient"; "height"; "href"; "letter-spacing"; "opacity";
    "path"; "r"; "rx"; "ry"; "src"; "stroke"; "stroke-dasharray";
    "stroke-linecap"; "stroke-linejoin"; "stroke-miterlimit"; "stroke-opacity";
    "stroke-width"; "target"; "text-anchor"; "title"; "transform"; "width";
    "x"; "y" ].

(** The fields of a style that [attr] takes: those with a name Raphael
    knows; it skips the others. *)
Definition accepted (o : obj) : obj :=
  filter (λ kv : string * value, kv.1 ∈ availableAttrs) o.

(** [el.attr(o)] on the element itself: the fields of [o] that Raphael
    takes are written over the element's attributes. *)
Definition write_attrs (o : obj) (e : element) : element :=
  Element (accepted o ∪ attrs e) (hovers e).

(** [dot.attr(o)], where [dot] may be [undefined]. *)
Definition attr (dot : option loc) (o : obj) : M unit :=
  match dot with
  | None => throw TypeError
  | Some l => modify (λ w, set_paper (alter (write_attrs o) l (paper w)) w)
  end.

Definition add_hover (f_in f_out : closure) (e : element) : element :=
  Element (attrs e) (hovers e ++ [(f_in, f_out)]).

(** [el.hover(f_in, f_out)]. *)
Definition hover (l : loc) (f_in f_out : closure) : M unit :=
  modify (λ w, set_paper (alter (add_hover f_in f_out) l (paper w)) w).

(** The pointer enters, resp. leaves, the element [l]: its handlers run in
    the order they were bound. *)
Definition hoverEnter (l : loc) (w : world) : list invocation :=
  match paper w !! l with
  | Some e => (λ h, call h.1) <$> hovers e
  | None => []
  end.

Definition hoverExit (l : loc) (w : world) : list invocation :=
  match paper w !! l with
  | Some e => (λ h, call h.2) <$> hovers e
  | None => []
  end.

End Raphael.

(** ** tui.util *)

Module TuiUtil.

(** [tui.util.extend(target, source)]: own fields of [source] are copied
    over [target]. *)
Definition extend (target source : obj) : obj := source ∪ target.

Fixpoint forEachArray_from {A} (iteratee : A → nat → M unit)
    (i : nat) (arr : list A) : M unit :=
  match arr with
  | [] => mret tt
  | x :: rest => iteratee x i;; forEachArray_from iteratee (S i) rest
  end.

(** [tui.util.forEachArray(arr, iteratee)]; reading [arr.length] throws
    when [arr] is [undefined]. The iteratees of this file return nothing,
    so the loop never breaks early. *)
Definition forEachArray {A} (arr : option (list A))
    (iteratee : A → nat → M unit) : M unit :=
  match arr with
  | None => throw TypeError
  | Some l => forEachArray_from iteratee 0 l
  end.

Fixpoint map_from {A B} (iteratee : A → nat → M B)
    (i : nat) (arr : list A) : M (list B) :=
  match arr with
  | [] => mret []
  | x :: rest =>
      y ← iteratee x i;
      ys ← map_from iteratee (S i) rest;
      mret (y :: ys)
  end.

(** [tui.util.map(arr, iteratee)] on an array. *)
Definition map {A B} (arr : list A) (iteratee : A → nat → M B) : M (list B) :=
  map_from iteratee 0 arr.

Definition max_length {A} (arr2d : list (list A)) : nat :=
  foldr (λ arr n, length arr `max` n) 0 arr2d.

(** Modelled from the spec: [tui.util.pivot], which the chart adds to
    tui.util in a file of its own. The spec has it as the index transpose
    of a two-dimensional array: column [i] lists, in group order,
    [arr2d[g][i]] for every group [g] that has a point at [i]. *)
Definition column {A} (arr2d : list (list A)) (i : nat) : list A :=
  omap (λ arr : list A, arr !! i) arr2d.

Definition pivot {A} (arr2d : list (list A)) : list (list A) :=
  column arr2d <$> seq 0 (max_length arr2d).

End TuiUtil.

(** ** RaphaelLineTypeBase *)

Definition DEFAULT_DOT_WIDTH : float := 3.
Definition HOVER_DOT_WIDTH : float := 4.

Record LinePaths := { start : string; end_ : string }.

Section RaphaelLineTypeBase.

(** [raphaelRenderUtil.makeLinePath], of a sibling file; it builds the
    path string of the segment between two positions. *)
Variable raphaelRenderUtil_makeLinePath : Position → Position → string.

Definition makeLinePath (fromPos toPos : Position) : LinePaths :=
  let startLinePath := raphaelRenderUtil_makeLinePath fromPos fromPos in
  let endLinePath := raphaelRenderUtil_makeLinePath fromPos toPos in
  {| start := startLinePath; end_ := endLinePath |}.

Definition makeBorderStyle (borderColor opacity : value) : option obj :=
  if truthy borderColor
  then Some {[ "stroke" := borderColor;
               "stroke-width" := VNumber 1;
               "stroke-opacity" := opacity ]}
  else None.

Definition makeOutDotStyle (opacity : value) (borderStyle : option obj) : obj :=
  let outDotStyle : obj :=
    {[ "fill-opacity" := opacity;
       "stroke-opacity" := VNumber 0;
       "r" := VNumber DEFAULT_DOT_WIDTH ]} in
  match borderStyle with
  | Some borderStyle => TuiUtil.extend outDotStyle borderStyle
  | None => outDotStyle
  end.

Definition renderDot (position : Position) (color : value) : M loc :=
  dot ← Raphael.circle (left position) (top position) DEFAULT_DOT_WIDTH;
  let dotStyle : obj :=
    {[ "fill" := color;
       "fill-opacity" := VNumber 0;
       "stroke-opacity" := VNumber 0 ]} in
  Raphael.attr (Some dot) dotStyle;;
  mret dot.

Definition renderDots (groupPositions : list (list Position))
    (colors : list string) : M (list (list loc)) :=
  TuiUtil.map groupPositions (λ positions groupIndex,
    let color := index_value colors groupIndex in
    TuiUtil.map positions (λ position _,
      dot ← renderDot position color;
      mret dot)).

Definition _getCenter (fromPos toPos : Position) : Position :=
  {| left := (left fromPos + left toPos) / 2;
     top := (top fromPos + top toPos) / 2 |}.

Definition _bindHoverEvent (dot : loc) (position : option Position)
    (groupIndex index : nat) (inCallback outCallback : fn) : M unit :=
  Raphael.hover dot
    (HoverIn inCallback position index groupIndex)
    (HoverOut outCallback).

Definition attachEvent (groupDots : list (list loc))
    (groupPositions : list (list Position)) (outDotStyle : obj)
    (inCallback outCallback : fn) : M unit :=
  TuiUtil.forEachArray (Some groupDots) (λ dots groupIndex,
    TuiUtil.forEachArray (Some dots) (λ dot index,
      position ← member (groupPositions !! groupIndex) index;
      _bindHoverEvent dot position groupIndex index inCallback outCallback)).

Definition showStyle : obj :=
  {[ "fill-opacity" := VNumber 1;
     "stroke-opacity" := VNumber num_0_3;
     "stroke-width" := VNumber 2;
     "r" := VNumber HOVER_DOT_WIDTH ]}.

Definition _showDot (dot : option loc) : M unit :=
  Raphael.attr dot showStyle.

Definition showAnimation (data : Data.t) : M unit :=
  let index := Data.groupIndex data in
  let groupIndex := Data.index data in
  this ← get;
  dot ← member (groupDots this !! groupIndex) index;
  _showDot dot.

Definition _getPivotGroupDots : M (option (list (list loc))) :=
  this ← get;
  match pivotGroupDots this with
  | None =>
      modify (set_pivotGroupDots (Some (TuiUtil.pivot (groupDots this))))
  | Some _ => mret tt
  end;;
  this ← get;
  mret (pivotGroupDots this).

Definition _showGroupDots (index : nat) : M unit :=
  dots ← _getPivotGroupDots;
  col ← member dots index;
  TuiUtil.forEachArray col (λ dot _, _showDot (Some dot)).

Definition _showTooltipLine (bound : Bound) : M unit :=
  let linePath :=
    raphaelRenderUtil_makeLinePath
      {| left := left (position bound); top := height (dimension bound) |}
      {| left := left (position bound); top := top (position bound) |} in
  this ← get;
  Raphael.attr (Some (tooltipLine this))
    {[ "path" := VString linePath;
       "stroke" := VString "#999";
       "stroke-opacity" := VNumber 1 ]}.

Definition showGroupAnimation (index : nat) (bound : Bound) : M unit :=
  _showGroupDots index;;
  _showTooltipLine bound.

Definition _hideDot (dot : option loc) : M unit :=
  this ← get;
  Raphael.attr dot (outDotStyle this).

Definition hideAnimation (data : Data.t) : M unit :=
  let index := Data.groupIndex data in
  let groupIndex := Data.index data in
  this ← get;
  dot ← member (groupDots this !! groupIndex) index;
  match dot with
  | Some _ => _hideDot dot
  | None => mret tt
  end.

Definition _hideGroupDots (index : nat) : M unit :=
  dots ← _getPivotGroupDots;
  col ← member dots index;
  TuiUtil.forEachArray col (λ dot _, _hideDot (Some dot)).

Definition _hideTooltipLine : M unit :=
  this ← get;
  Raphael.attr (Some (tooltipLine this)) {[ "stroke-opacity" := VNumber 0 ]}.

Definition hideGroupAnimation (index : nat) : M unit :=
  _hideGroupDots index;;
  _hideTooltipLine.

Definition renderItems (funcRenderItem : loc → nat → nat → M unit) : M unit :=
  this ← get;
  TuiUtil.forEachArray (Some (groupDots this)) (λ dots groupIndex,
    TuiUtil.forEachArray (Some dots) (λ dot index,
      funcRenderItem dot groupIndex index)).

End RaphaelLineTypeBase.

(** Modelled from the spec: the render pass of a concrete series renderer
    (line, area), which raphaelLineTypeBase.js does not contain. It writes
    the renderer's fields anew (sections 3 and 5: groupDots is replaced
    wholesale and pivotGroupDots is invalidated with it). *)
Definition renderPass (p : list element) (dots : list (list loc))
    (style : obj) (line : loc) : M unit :=
  modify (λ _, World p dots None style line).

(** What the chart does with a renderer once it exists. *)
Inductive action :=
| Render (p : list element) (dots : list (list loc)) (style : obj) (line : loc)
| ShowAnimation (data : Data.t)
| HideAnimation (data : Data.t)
| ShowGroupAnimation (index : nat) (bound : Bound)
| HideGroupAnimation (index : nat).

Section Runs.

Variable raphaelRenderUtil_makeLinePath : Position → Position → string.

Definition perform (a : action) : M unit :=
  match a with
  | Render p dots style line => renderPass p dots style line
  | ShowAnimation data => showAnimation data
  | HideAnimation data => hideAnimation data
  | ShowGroupAnimation index bound =>
      showGroupAnimation raphaelRenderUtil_makeLinePath index bound
  | HideGroupAnimation index => hideGroupAnimation index
  end.

(** The world after a sequence of actions; an action that throws leaves
    the world as it was when it threw. *)
Definition run (acts : list action) (w : world) : world :=
  foldl (λ w a, (perform a w).2) w acts.

End Runs.

(** The marker a payload designates: the field named [index] selects the
    group, the field named [groupIndex] the point. *)
Definition marker_at (w : world) (data : Data.t) : option loc :=
  groupDots w !! Data.index data ≫= λ row, row !! Data.groupIndex data.

(** ** Vocabulary of the statements *)

(** [e'] is [e] after the style [o] was applied to it: the fields of [o]
    have the values [o] gives them, every other attribute is as it was. *)
Definition restyled (o : obj) (e e' : element) : Prop :=
  hovers e' = hovers e
  ∧ ∀ k, attrs e' !! k = match o !! k with Some v => Some v | None => attrs e !! k end.

(** Every name of the style is a Raphael attribute, so that [attr] takes
    the whole style; the styles [makeOutDotStyle] makes from the border
    styles of [makeBorderStyle] are such. *)
Definition known_names (o : obj) : Prop :=
  ∀ k, is_Some (o !! k) → k ∈ Raphael.availableAttrs.

(** The renderer's fields other than the paper are the same. *)
Definition same_fields (w w' : world) : Prop :=
  groupDots w' = groupDots w
  ∧ pivotGroupDots w' = pivotGroupDots w
  ∧ outDotStyle w' = outDotStyle w
  ∧ tooltipLine w' = tooltipLine w.

(** ** Sample worlds *)

Definition blank : world := World [] [] None ∅ 0.

Definition at_ (x y : float) : Position := {| left := x; top := y |}.

(** Two series of three points each. *)
Definition grid_positions : list (list Position) :=
  [ [at_ 10 80; at_ 50 60; at_ 90 70];
    [at_ 10 40; at_ 50 30; at_ 90 20] ].

(** Series of two, zero and three points. *)
Definition ragged_positions : list (list Position) :=
  [ [at_ 10 80; at_ 50 60]; []; [at_ 10 40; at_ 50 30; at_ 90 20] ].

(** A tooltip line as [_renderTooltipLine] leaves it, for a chart of
    height 100. *)
Definition sample_line : element :=
  Element {[ "path" := VString "M10 100L10 0";
             "stroke" := VString "transparent";
             "stroke-width" := VNumber 1 ]} [].

(** The world after the dots of [positions] were rendered on an empty
    paper, followed by the tooltip line, with [style] as out style. *)
Definition rendered (positions : list (list Position)) (colors : list string)
    (style : obj) : world :=
  match renderDots positions colors blank with
  | (Returned dots, w) =>
      World (paper w ++ [sample_line]) dots None style (length (paper w))
  | (Thrown _, w) => w
  end.

Definition grid_world : world :=
  rendered grid_positions ["red"; "blue"] (makeOutDotStyle (VNumber 1) None).

(** [grid_world] once its first marker was hidden: that marker is in the
    out state. *)
Definition hidden_world : world := (hideAnimation (Data.make 0 0) grid_world).2.

(** Show, then hide, with the same payload. *)
Definition show_then_hide (data : Data.t) : M unit :=
  showAnimation data;; hideAnimation data.

(** The pivot cache is empty or holds the transpose of the current
    [groupDots]. *)
Definition pivot_consistent (w : world) : Prop :=
  ∀ p, pivotGroupDots w = Some p → p = TuiUtil.pivot (groupDots w).

(** A computation keeps an invariant of the world, whether it returns or
    throws. *)
Definition keeps (I : world → Prop) {A} (m : M A) : Prop :=
  ∀ w, I w → I (m w).2.

(** The paper after the style [o] was applied to the elements [ls], one
    after the other. *)
Definition restyle_all (o : obj) (ls : list loc) (p : list element) : list element :=
  foldl (λ p l, alter (Raphael.write_attrs o) l p) p ls.

(** A path builder to run the samples with. *)
Definition sample_makeLinePath (fromPos toPos : Position) : string := "M10 100L10 20".

Definition sample_bound : Bound :=
  {| dimension := {| width := 100; height := 100 |}; position := at_ 10 20 |}.

(** The element [renderDot] leaves on the paper. *)
Definition dot_element (position : Position) (color : value) : element :=
  Element
    ({[ "fill" := color; "fill-opacity" := VNumber 0; "stroke-opacity" := VNumber 0 ]}
     ∪ Raphael.circle_attrs (left position) (top position) 3)
    [].

(** The references [renderDots] hands out on a paper of [base] elements:
    consecutive ones, group after group. *)
Fixpoint layout (base : nat) (groupPositions : list (list Position)) : list (list loc) :=
  match groupPositions with
  | [] => []
  | positions :: rest =>
      seq base (length positions) :: layout (base + length positions) rest
  end.

(** The elements [renderDots] adds to the paper, the first group being
    group [n]. *)
Fixpoint rendered_elements (colors : list string) (n : nat)
    (groupPositions : list (list Position)) : list element :=
  match groupPositions with
  | [] => []
  | positions :: rest =>
      ((λ position, dot_element position (index_value colors n)) <$> positions)
      ++ rendered_elements colors (S n) rest
  end.

(** Equal shape of a marker table and a position table. *)
Definition congruent {A B} (xs : list (list A)) (ys : list (list B)) : Prop :=
  Forall2 (λ x y, length x = length y) xs ys.

(** What [_bindHoverEvent] does to the dot of group [g] at point [i]. *)
Definition hover_binding (inCallback outCallback : fn) (ps : list Position)
    (g i : nat) : element → element :=
  Raphael.add_hover (HoverIn inCallback (ps !! i) i g) (HoverOut outCallback).

(** The paper after [attachEvent] went through the dots of group [g],
    [n] being the index of the first of them. *)
Fixpoint bind_row (inCallback outCallback : fn) (g : nat) (ps : list Position)
    (n : nat) (dots : list loc) (p : list element) : list element :=
  match dots with
  | [] => p
  | dot :: rest =>
      bind_row inCallback outCallback g ps (S n) rest
        (alter (hover_binding inCallback outCallback ps g n) dot p)
  end.

(** The paper after [attachEvent] went through the groups, [n] being the
    index of the first of them. *)
Fixpoint bind_rows (inCallback outCallback : fn) (groupPositions : list (list Position))
    (n : nat) (groupDots : list (list loc)) (p : list element) : list element :=
  match groupDots with
  | [] => p
  | dots :: rest =>
      bind_rows inCallback outCallback groupPositions (S n) rest
        (bind_row inCallback outCallback n (default [] (groupPositions !! n)) 0 dots p)
  end.

(** [grid_world] with an out style that has a border, its first marker
    hidden once. *)
Definition border_world : world :=
  (hideAnimation (Data.make 0 0)
     (rendered grid_positions ["red"; "blue"]
        (makeOutDotStyle (VNumber 1)
           (makeBorderStyle (VString "#fff") (VNumber 0.5))))).2.

(** The payloads that designate, dot by dot, the markers of column [idx]:
    the point index goes in the field named [groupIndex], the group index
    in the field named [index]; [n] is the index of the first group. *)
Fixpoint column_payloads_from (n : nat) (groupDots : list (list loc)) (idx : nat)
    : list Data.t :=
  match groupDots with
  | [] => []
  | row :: rest =>
      match row !! idx with
      | Some _ => Data.make idx n :: column_payloads_from (S n) rest idx
      | None => column_payloads_from (S n) rest idx
      end
  end.

Definition column_payloads (groupDots : list (list loc)) (idx : nat) : list Data.t :=
  column_payloads_from 0 groupDots idx.

(** ** What a method leaves untouched *)

(** [R] relates the world a computation starts in to the world it leaves,
    whether it returns or throws. *)
Definition stays (R : world → world → Prop) {A} (m : M A) : Prop :=
  ∀ w, R w (m w).2.

(** From [w] to [w'] nothing happened but hover handlers being added: the
    renderer's fields and the number of elements are the same, and every
    element has the attributes it had and the handlers it had, in their
    order, at the head of its handlers. *)
Definition handlers_only (w w' : world) : Prop :=
  same_fields w w'
  ∧ length (paper w') = length (paper w)
  ∧ ∀ l e, paper w !! l = Some e →
      ∃ e', paper w' !! l = Some e' ∧ attrs e' = attrs e
            ∧ hovers e `prefix_of` hovers e'.

(** The attributes an animation may write: those of the hover style, those
    of the tooltip line, and whatever the cached out style defines. *)
Definition style_key (w : world) (k : string) : Prop :=
  k ∈ ["fill-opacity"; "stroke-opacity"; "stroke-width"; "r"; "path"; "stroke"]
  ∨ is_Some (outDotStyle w !! k).

(** From [w] to [w'] nothing happened but elements being restyled: the
    dots table, the out style and the tooltip line are the same (the pivot
    cache may have been filled), no element was created or removed, every
    element has the handlers it had, and every attribute that is not a
    style key has the value, or the absence, it had. *)
Definition restyles_only (w w' : world) : Prop :=
  groupDots w' = groupDots w
  ∧ outDotStyle w' = outDotStyle w
  ∧ tooltipLine w' = tooltipLine w
  ∧ length (paper w') = length (paper w)
  ∧ (∀ l, hovers <$> paper w' !! l = hovers <$> paper w !! l)
  ∧ (∀ l k, ¬ style_key w k →
       (paper w' !! l ≫= λ e, attrs e !! k) = (paper w !! l ≫= λ e, attrs e !! k)).

Definition is_animation (a : action) : Prop :=
  match a with
  | Render _ _ _ _ => False
  | _ => True
  end.

(** ** The items of [renderItems] *)

(** The dots of group [g] with their indices, [n] being the index of the
    first. *)
Fixpoint row_items (g n : nat) (dots : list loc) : list (loc * nat * nat) :=
  match dots with
  | [] => []
  | dot :: rest => (dot, g, n) :: row_items g (S n) rest
  end.

(** The dots of a table, group after group, each with the index of its
    group and its index in the group; [n] is the index of the first group. *)
Fixpoint items_from (n : nat) (groupDots : list (list loc)) : list (loc * nat * nat) :=
  match groupDots with
  | [] => []
  | dots :: rest => row_items n 0 dots ++ items_from (S n) rest
  end.

(** Calling [f] on the items one after the other, up to the first call
    that throws. *)
Fixpoint visit (f : loc → nat → nat → M unit) (items : list (loc * nat * nat)) : M unit :=
  match items with
  | [] => mret tt
  | (dot, g, i) :: rest => f dot g i;; visit f rest
  end.

(** ** Replacing the table *)

(** [this.groupDots = dots]: the assignment by which a series renderer
    replaces the table of dots. It writes that field and no other. *)
Definition set_groupDots (dots : list (list loc)) (w : world) : world :=
  World (paper w) dots (pivotGroupDots w) (outDotStyle w) (tooltipLine w).

Definition is_group_animation (a : action) : bool :=
  match a with
  | ShowGroupAnimation _ _ | HideGroupAnimation _ => true
  | _ => false
  end.

(** From [w] to [w'] neither the table of dots nor the pivot cache was
    written. *)
Definition same_table (w w' : world) : Prop :=
  groupDots w' = groupDots w ∧ pivotGroupDots w' = pivotGroupDots w.

(** [grid_world] after its last column was hidden once and the table was
    then replaced by one group of two dots. *)
Definition replaced_world : world :=
  set_groupDots [[0; 1]] (hideGroupAnimation 2 grid_world).2.

(** * Properties *)

Ltac run_monad :=
  repeat (unfold mbind, M_bind, mret, M_ret, get, modify, member, throw; simpl).

(** ** Pure helpers *)

(** C9: [makeLinePath] pairs the path from the first position to itself
    with the path from the first position to the second; it is a function
    of its two arguments alone, and for equal positions the two paths
    coincide. *)
Theorem makeLinePath_start_end (util : Position → Position → string)
    (A B : Position) :
  start (makeLinePath util A B) = util A A
  ∧ end_ (makeLinePath util A B) = util A B
  ∧ start (makeLinePath util A A) = end_ (makeLinePath util A A).
Proof. unfold makeLinePath; simpl. done. Qed.

(** C10: [_getCenter] is the componentwise midpoint, in the arithmetic of
    JavaScript numbers; it takes nothing but its two arguments. *)
Theorem getCenter_midpoint (a1 a2 b1 b2 : float) :
  _getCenter {| left := a1; top := a2 |} {| left := b1; top := b2 |}
  = {| left := ((a1 + b1) / 2)%float; top := ((a2 + b2) / 2)%float |}.
Proof. reflexivity. Qed.

Example getCenter_10_20_30_60 :
  _getCenter {| left := 10; top := 20 |} {| left := 30; top := 60 |}
  = {| left := 20; top := 40 |}.
Proof. vm_compute. reflexivity. Qed.

(** C8: without a border style [makeOutDotStyle] is the base style; with
    one, the fields of the border style are laid over the base style and
    win on every name they share. *)
Theorem makeOutDotStyle_merge (o : value) (b : obj) :
  let base : obj :=
    {[ "fill-opacity" := o; "stroke-opacity" := VNumber 0; "r" := VNumber 3 ]} in
  makeOutDotStyle o None = base
  ∧ (∀ k v, b !! k = Some v → makeOutDotStyle o (Some b) !! k = Some v)
  ∧ (∀ k, b !! k = None → makeOutDotStyle o (Some b) !! k = base !! k).
Proof.
  intros base. split; [done|].
  unfold makeOutDotStyle, TuiUtil.extend. split.
  - intros k v Hk. by apply lookup_union_Some_l.
  - intros k Hk. by rewrite lookup_union_r.
Qed.

(** ** Showing and hiding one dot *)

Lemma lookup_write_attrs (o : obj) (e : element) :
  restyled (Raphael.accepted o) e (Raphael.write_attrs o e).
Proof.
  split; [done|]. intros k. cbn [attrs Raphael.write_attrs]. rewrite lookup_union.
  by destruct (Raphael.accepted o !! k), (attrs e !! k).
Qed.

Lemma accepted_id (o : obj) : known_names o → Raphael.accepted o = o.
Proof.
  intros Hkeys. apply map_filter_id. intros k v Hk. apply Hkeys. by exists v.
Qed.

Lemma accepted_None (o : obj) (k : string) :
  o !! k = None → Raphael.accepted o !! k = None.
Proof. intros Hk. apply map_lookup_filter_None. by left. Qed.

Lemma lookup_write_attrs_known (o : obj) (e : element) :
  Raphael.accepted o = o → restyled o e (Raphael.write_attrs o e).
Proof. intros Ho. pose proof (lookup_write_attrs o e) as Hr. by rewrite Ho in Hr. Qed.

Lemma same_fields_set_paper (p : list element) (w : world) :
  same_fields w (set_paper p w).
Proof. by destruct w. Qed.

(** C1: when the marker [groupDots[data.index][data.groupIndex]] exists,
    [showAnimation data] returns, gives that marker the hover style (fill
    opacity 1, stroke opacity 0.3, stroke width 2, radius 4) and leaves
    every other element of the paper as it was. *)
Theorem showAnimation_marker (w : world) (data : Data.t)
    (row : list loc) (l : loc) :
  groupDots w !! Data.index data = Some row →
  row !! Data.groupIndex data = Some l →
  let shown : obj :=
    {[ "fill-opacity" := VNumber 1; "stroke-opacity" := VNumber num_0_3;
       "stroke-width" := VNumber 2; "r" := VNumber 4 ]} in
  ∃ w', showAnimation data w = (Returned tt, w')
    ∧ (∀ e, paper w !! l = Some e →
         ∃ e', paper w' !! l = Some e' ∧ restyled shown e e')
    ∧ (∀ l', l' ≠ l → paper w' !! l' = paper w !! l')
    ∧ length (paper w') = length (paper w)
    ∧ same_fields w w'.
Proof.
  intros Hrow Hdot shown.
  eexists. split.
  { unfold showAnimation. run_monad. rewrite Hrow. simpl. rewrite Hdot.
    simpl. reflexivity. }
  simpl. repeat split.
  - intros e He. exists (Raphael.write_attrs shown e). split.
    + by rewrite list_lookup_alter_eq, He.
    + by apply lookup_write_attrs_known.
  - intros l' Hne. by rewrite list_lookup_alter_ne.
  - by rewrite length_alter.
Qed.

(** The spec's sample: the payload {groupIndex: 2, index: 1} designates
    the marker of group 1 at point 2; its radius becomes 4 while the marker
    of group 0 at point 2 keeps radius 3. *)
Lemma showAnimation_marker_witness :
  ∃ w', showAnimation (Data.make 2 1) grid_world = (Returned tt, w')
    ∧ (paper w' !! 5 ≫= λ e, attrs e !! "r") = Some (VNumber 4)
    ∧ (paper w' !! 2 ≫= λ e, attrs e !! "r") = Some (VNumber 3).
Proof.
  destruct (showAnimation_marker grid_world (Data.make 2 1) [3; 4; 5] 5
              eq_refl eq_refl) as (w' & Hrun & Hdot & Hothers & _).
  exists w'. split; [exact Hrun|]. split.
  - destruct (Hdot _ eq_refl) as (e' & -> & _ & Hk). simpl. by rewrite Hk.
  - by rewrite Hothers.
Defined.

(** C3 as stated fails when the group row itself is missing (here group 2
    of a chart of two groups): reading a point of an absent row throws
    before the guard on the dot is reached. *)
Lemma hideAnimation_absent_row_throws :
  marker_at grid_world (Data.make 0 2) = None
  ∧ hideAnimation (Data.make 0 2) grid_world = (Thrown TypeError, grid_world).
Proof. split; reflexivity. Qed.

(** C3, amended: when the group row [groupDots[data.index]] exists and has
    no marker at [data.groupIndex], [hideAnimation data] returns and leaves
    the world, all markers included, as it was. *)
Theorem hideAnimation_absent_marker (w : world) (data : Data.t)
    (row : list loc) :
  groupDots w !! Data.index data = Some row →
  row !! Data.groupIndex data = None →
  hideAnimation data w = (Returned tt, w).
Proof.
  intros Hrow Hdot. unfold hideAnimation. run_monad.
  rewrite Hrow. simpl. by rewrite Hdot.
Qed.

Lemma hideAnimation_absent_marker_witness :
  hideAnimation (Data.make 3 1) grid_world = (Returned tt, grid_world).
Proof.
  apply (hideAnimation_absent_marker grid_world (Data.make 3 1) [3; 4; 5]);
    reflexivity.
Defined.

Lemma alter_fixed {A} (f : A → A) (l : list A) (i : nat) (x : A) :
  l !! i = Some x → f x = x → alter f i l = l.
Proof.
  intros Hi Hf. apply list_eq. intros j.
  destruct (decide (i = j)) as [<-|Hne].
  - by rewrite list_lookup_alter_eq, Hi; simpl; rewrite Hf.
  - by rewrite list_lookup_alter_ne.
Qed.

Lemma set_paper_same (w : world) : set_paper (paper w) w = w.
Proof. by destruct w. Qed.

Lemma show_then_hide_run (w : world) (data : Data.t) (row : list loc) (l : loc) :
  groupDots w !! Data.index data = Some row →
  row !! Data.groupIndex data = Some l →
  show_then_hide data w =
    (Returned tt,
     set_paper (alter (Raphael.write_attrs (outDotStyle w) ∘ Raphael.write_attrs showStyle)
                  l (paper w)) w).
Proof.
  intros Hrow Hdot. unfold show_then_hide, showAnimation, hideAnimation, _hideDot.
  run_monad. rewrite Hrow. simpl. rewrite Hdot. simpl.
  rewrite Hrow. simpl. rewrite Hdot. run_monad.
  unfold set_paper. simpl. by rewrite list_alter_alter_eq.
Qed.

(** A style applied twice is the style applied once. *)
Lemma union_absorb (s a : obj) : s ∪ (s ∪ a) = s ∪ a.
Proof. by rewrite (assoc_L (∪)), (idemp_L (∪)). Qed.

Lemma restyle_twice (o s a : obj) : o ∪ (s ∪ (o ∪ (s ∪ a))) = o ∪ (s ∪ a).
Proof.
  rewrite (assoc_L (∪) o s (o ∪ (s ∪ a))), (assoc_L (∪) o s a).
  apply union_absorb.
Qed.

(** C2 as stated fails: a marker in the out state, under an out style made
    without a border, keeps the stroke width 2 of the hover style after
    the hide, an attribute it did not have before the show. *)
Lemma show_then_hide_keeps_stroke_width :
  marker_at hidden_world (Data.make 0 0) = Some 0
  ∧ outDotStyle hidden_world ⊆ default ∅ (attrs <$> paper hidden_world !! 0)
  ∧ attrs <$> paper (show_then_hide (Data.make 0 0) hidden_world).2 !! 0
    ≠ attrs <$> paper hidden_world !! 0.
Proof.
  split; [reflexivity|]. split.
  - replace (default ∅ (attrs <$> paper hidden_world !! 0))
      with (outDotStyle hidden_world ∪ default ∅ (attrs <$> paper grid_world !! 0))
      by (vm_compute; reflexivity).
    apply map_union_subseteq_l.
  - intros H.
    apply (f_equal (λ o : option obj, o ≫= λ a, a !! "stroke-width")) in H.
    vm_compute in H. discriminate.
Qed.

(** C2, amended: show then hide on an existing marker returns and leaves
    it with the out style, as far as Raphael takes its fields, laid over
    the hover style laid over its former attributes, every other element
    untouched. The marker is back to its former attributes exactly when it
    already carried every such field of the out style and, for the hover
    fields the out style lacks, the hover value; this holds after any
    first round trip, so a second one changes nothing. Raphael takes the
    whole out style when all its names are Raphael attributes. *)
Theorem show_then_hide_roundtrip (w : world) (data : Data.t)
    (row : list loc) (l : loc) (e : element) :
  groupDots w !! Data.index data = Some row →
  row !! Data.groupIndex data = Some l →
  paper w !! l = Some e →
  let shown : obj :=
    {[ "fill-opacity" := VNumber 1; "stroke-opacity" := VNumber num_0_3;
       "stroke-width" := VNumber 2; "r" := VNumber 4 ]} in
  let out : obj := Raphael.accepted (outDotStyle w) in
  ∃ w', show_then_hide data w = (Returned tt, w')
    ∧ paper w' !! l = Some (Element (out ∪ (shown ∪ attrs e)) (hovers e))
    ∧ (∀ l', l' ≠ l → paper w' !! l' = paper w !! l')
    ∧ same_fields w w'
    ∧ (w' = w ↔ out ∪ shown ⊆ attrs e)
    ∧ show_then_hide data w' = (Returned tt, w')
    ∧ (known_names (outDotStyle w) → out = outDotStyle w).
Proof.
  intros Hrow Hdot He shown out.
  assert (Hs : shown = showStyle) by reflexivity.
  clearbody shown. subst shown.
  eexists. split; [by apply (show_then_hide_run w data row l)|].
  set (F := Raphael.write_attrs (outDotStyle w) ∘ Raphael.write_attrs showStyle).
  assert (HF : ∀ x, F x = Element (out ∪ (showStyle ∪ attrs x)) (hovers x))
    by done.
  assert (Hl : alter F l (paper w) !! l = Some (F e))
    by (by rewrite list_lookup_alter_eq, He).
  split; [by rewrite <- HF|].
  split; [by intros l' Hne; simpl; rewrite list_lookup_alter_ne|].
  split; [apply same_fields_set_paper|].
  split; [|split].
  - split.
    + intros Hw. apply (f_equal paper) in Hw. cbn [paper set_paper] in Hw.
      rewrite Hw, He, HF in Hl. injection Hl as Hl.
      apply (f_equal attrs) in Hl. cbn [attrs] in Hl.
      rewrite (assoc_L (∪)) in Hl. rewrite Hl.
      apply map_union_subseteq_l.
    + intros Hsub. rewrite (alter_fixed F _ l e); [apply set_paper_same|done|].
      rewrite HF. destruct e as [a h]. cbn [attrs hovers]. f_equal.
      rewrite (assoc_L (∪)). by apply map_subseteq_union.
  - rewrite (show_then_hide_run _ data row l); [|done..].
    f_equal. cbn [paper set_paper outDotStyle]. fold F.
    rewrite (alter_fixed F _ l (F e)); [|exact Hl|].
    + pose proof (set_paper_same (set_paper (alter F l (paper w)) w)) as Hp.
      exact Hp.
    + rewrite !HF. cbn [attrs hovers]. f_equal. apply restyle_twice.
  - apply accepted_id.
Qed.

Lemma show_then_hide_roundtrip_witness :
  ∃ w', show_then_hide (Data.make 0 0) grid_world = (Returned tt, w')
    ∧ show_then_hide (Data.make 0 0) w' = (Returned tt, w').
Proof.
  destruct (show_then_hide_roundtrip grid_world (Data.make 0 0) [0; 1; 2] 0 _
              eq_refl eq_refl eq_refl) as (w' & Hrun & _ & _ & _ & _ & Hagain & _).
  by exists w'.
Defined.

(** ** Invariants kept by every method *)

Section Keeps.

Variable I : world → Prop.

Lemma keeps_ret {A} (a : A) : keeps I (mret a).
Proof. by intros w Hw. Qed.

Lemma keeps_throw {A} (e : error) : keeps I (@throw A e).
Proof. by intros w Hw. Qed.

Lemma keeps_get : keeps I get.
Proof. by intros w Hw. Qed.

Lemma keeps_member {A} (arr : option (list A)) (i : nat) : keeps I (member arr i).
Proof. destruct arr; [apply keeps_ret | apply keeps_throw]. Qed.

Lemma keeps_bind {A B} (m : M A) (f : A → M B) :
  keeps I m → (∀ a, keeps I (f a)) → keeps I (m ≫= f).
Proof.
  intros Hm Hf w Hw. unfold mbind, M_bind.
  specialize (Hm w Hw). destruct (m w) as [[a|e] w1]; simpl in *.
  - by apply Hf.
  - done.
Qed.

Lemma keeps_forEachArray_from {A} (iteratee : A → nat → M unit) (arr : list A) :
  (∀ x i, keeps I (iteratee x i)) →
  ∀ n, keeps I (TuiUtil.forEachArray_from iteratee n arr).
Proof.
  intros Hit. induction arr as [|x rest IH]; intros n; simpl.
  - apply keeps_ret.
  - apply keeps_bind; [apply Hit | intros _; apply IH].
Qed.

Lemma keeps_forEachArray {A} (arr : option (list A)) (iteratee : A → nat → M unit) :
  (∀ x i, keeps I (iteratee x i)) → keeps I (TuiUtil.forEachArray arr iteratee).
Proof.
  intros Hit. destruct arr; simpl.
  - by apply keeps_forEachArray_from.
  - apply keeps_throw.
Qed.

(** The invariant does not look at the paper. *)
Hypothesis paper_blind : ∀ p w, I w → I (set_paper p w).

Lemma keeps_attr (dot : option loc) (o : obj) : keeps I (Raphael.attr dot o).
Proof.
  destruct dot; simpl; [|apply keeps_throw].
  intros w Hw. by apply paper_blind.
Qed.

Lemma keeps_showDot (dot : option loc) : keeps I (_showDot dot).
Proof. apply keeps_attr. Qed.

Lemma keeps_hideDot (dot : option loc) : keeps I (_hideDot dot).
Proof. apply keeps_bind; [apply keeps_get | intros; apply keeps_attr]. Qed.

Lemma keeps_showAnimation (data : Data.t) : keeps I (showAnimation data).
Proof.
  apply keeps_bind; [apply keeps_get | intros this].
  apply keeps_bind; [apply keeps_member | intros dot].
  apply keeps_showDot.
Qed.

Lemma keeps_hideAnimation (data : Data.t) : keeps I (hideAnimation data).
Proof.
  apply keeps_bind; [apply keeps_get | intros this].
  apply keeps_bind; [apply keeps_member | intros dot].
  destruct dot; [apply keeps_hideDot | apply keeps_ret].
Qed.

Lemma keeps_showTooltipLine util (bound : Bound) :
  keeps I (_showTooltipLine util bound).
Proof. apply keeps_bind; [apply keeps_get | intros; apply keeps_attr]. Qed.

Lemma keeps_hideTooltipLine : keeps I _hideTooltipLine.
Proof. apply keeps_bind; [apply keeps_get | intros; apply keeps_attr]. Qed.

Hypothesis keeps_getPivotGroupDots : keeps I _getPivotGroupDots.

Lemma keeps_showGroupAnimation util (index : nat) (bound : Bound) :
  keeps I (showGroupAnimation util index bound).
Proof.
  apply keeps_bind; [|intros; apply keeps_showTooltipLine].
  apply keeps_bind; [done | intros dots].
  apply keeps_bind; [apply keeps_member | intros col].
  apply keeps_forEachArray. intros; apply keeps_showDot.
Qed.

Lemma keeps_hideGroupAnimation (index : nat) : keeps I (hideGroupAnimation index).
Proof.
  apply keeps_bind; [|intros; apply keeps_hideTooltipLine].
  apply keeps_bind; [done | intros dots].
  apply keeps_bind; [apply keeps_member | intros col].
  apply keeps_forEachArray. intros; apply keeps_hideDot.
Qed.

End Keeps.

(** ** The pivot cache *)

Lemma getPivotGroupDots_cached (w : world) (p : list (list loc)) :
  pivotGroupDots w = Some p → _getPivotGroupDots w = (Returned (Some p), w).
Proof. intros Hp. unfold _getPivotGroupDots. run_monad. by rewrite Hp; simpl; rewrite Hp. Qed.

Lemma getPivotGroupDots_first (w : world) :
  pivotGroupDots w = None →
  _getPivotGroupDots w =
    (Returned (Some (TuiUtil.pivot (groupDots w))),
     set_pivotGroupDots (Some (TuiUtil.pivot (groupDots w))) w).
Proof. intros Hp. unfold _getPivotGroupDots. run_monad. by rewrite Hp. Qed.

Lemma getPivotGroupDots_consistent (w : world) :
  pivot_consistent w →
  (_getPivotGroupDots w).1 = Returned (Some (TuiUtil.pivot (groupDots w)))
  ∧ groupDots (_getPivotGroupDots w).2 = groupDots w
  ∧ paper (_getPivotGroupDots w).2 = paper w
  ∧ outDotStyle (_getPivotGroupDots w).2 = outDotStyle w
  ∧ tooltipLine (_getPivotGroupDots w).2 = tooltipLine w
  ∧ pivotGroupDots (_getPivotGroupDots w).2 = Some (TuiUtil.pivot (groupDots w)).
Proof.
  intros Hw. destruct (pivotGroupDots w) as [p|] eqn:Hp.
  - rewrite (getPivotGroupDots_cached w p Hp). simpl.
    by rewrite Hp, (Hw p Hp).
  - by rewrite (getPivotGroupDots_first w Hp).
Qed.

Lemma pivot_consistent_set_paper (p : list element) (w : world) :
  pivot_consistent w → pivot_consistent (set_paper p w).
Proof. done. Qed.

Lemma pivot_consistent_getPivotGroupDots : keeps pivot_consistent _getPivotGroupDots.
Proof.
  intros w Hw q.
  destruct (getPivotGroupDots_consistent w Hw) as (_ & -> & _ & _ & _ & ->).
  congruence.
Qed.

Lemma pivot_consistent_perform util (a : action) :
  keeps pivot_consistent (perform util a).
Proof.
  destruct a; simpl.
  - by intros w _ q.
  - apply keeps_showAnimation, pivot_consistent_set_paper.
  - apply keeps_hideAnimation, pivot_consistent_set_paper.
  - apply keeps_showGroupAnimation;
      [apply pivot_consistent_set_paper | apply pivot_consistent_getPivotGroupDots].
  - apply keeps_hideGroupAnimation;
      [apply pivot_consistent_set_paper | apply pivot_consistent_getPivotGroupDots].
Qed.

Lemma pivot_consistent_run util (acts : list action) (w : world) :
  pivot_consistent w → pivot_consistent (run util acts w).
Proof.
  revert w. induction acts as [|a acts IH]; intros w Hw; simpl; [done|].
  apply IH. by apply pivot_consistent_perform.
Qed.

(** With the render pass the spec asks for (one that clears the cache when
    it replaces the table), the cache is in step with [groupDots] after any
    sequence of render passes and animations. The renderer itself has no
    such step. *)
Remark render_pass_keeps_cache_in_step (util : Position → Position → string)
    (w0 : world) (acts : list action) :
  pivotGroupDots w0 = None →
  pivot_consistent (run util acts w0).
Proof. intros H0. apply pivot_consistent_run. intros p Hp. congruence. Qed.

(** The getter trusts a filled cache whatever [groupDots] holds: a write
    to [groupDots] that does not clear the cache leaves the former pivot in
    use. Keeping the two together is the duty of the render pass. *)
Remark getPivotGroupDots_trusts_cache (w : world) (p dots : list (list loc)) :
  let w' := World (paper w) dots (Some p) (outDotStyle w) (tooltipLine w) in
  _getPivotGroupDots w' = (Returned (Some p), w').
Proof. by apply getPivotGroupDots_cached. Qed.

(** ** Hiding a column *)

Lemma pivot_lookup {A} (arr2d : list (list A)) (i : nat) :
  i < TuiUtil.max_length arr2d →
  TuiUtil.pivot arr2d !! i = Some (TuiUtil.column arr2d i).
Proof.
  intros Hi. unfold TuiUtil.pivot.
  by rewrite list_lookup_fmap, lookup_seq_lt.
Qed.

Lemma pivot_lookup_ge {A} (arr2d : list (list A)) (i : nat) :
  TuiUtil.max_length arr2d ≤ i → TuiUtil.pivot arr2d !! i = None.
Proof.
  intros Hi. unfold TuiUtil.pivot.
  by rewrite list_lookup_fmap, lookup_seq_ge.
Qed.

Lemma elem_of_column {A} (arr2d : list (list A)) (i : nat) (x : A) :
  x ∈ TuiUtil.column arr2d i ↔ ∃ g row, arr2d !! g = Some row ∧ row !! i = Some x.
Proof.
  unfold TuiUtil.column. rewrite list_elem_of_omap. split.
  - intros (row & Hrow & Hx). apply list_elem_of_lookup in Hrow as [g Hg]. eauto.
  - intros (g & row & Hg & Hx). exists row. split; [|done].
    by apply list_elem_of_lookup_2 with g.
Qed.

Lemma write_attrs_twice (o : obj) (e : element) :
  Raphael.write_attrs o (Raphael.write_attrs o e) = Raphael.write_attrs o e.
Proof. unfold Raphael.write_attrs. simpl. f_equal. apply union_absorb. Qed.

Lemma restyle_all_lookup_notin (o : obj) (ls : list loc) (p : list element) (l : loc) :
  l ∉ ls → restyle_all o ls p !! l = p !! l.
Proof.
  revert p. induction ls as [|x ls IH]; intros p Hl; [done|].
  apply not_elem_of_cons in Hl as [Hne Hl].
  unfold restyle_all in *. simpl. rewrite IH by done.
  by rewrite list_lookup_alter_ne.
Qed.

Lemma restyle_all_lookup_in (o : obj) (ls : list loc) (p : list element) (l : loc) :
  l ∈ ls → restyle_all o ls p !! l = Raphael.write_attrs o <$> p !! l.
Proof.
  revert p. induction ls as [|x ls IH]; intros p Hl; [by apply elem_of_nil in Hl|].
  change (restyle_all o (x :: ls) p)
    with (restyle_all o ls (alter (Raphael.write_attrs o) x p)).
  destruct (decide (l ∈ ls)) as [Hin|Hnotin].
  - rewrite IH by done. destruct (decide (x = l)) as [->|Hne].
    + rewrite list_lookup_alter_eq. destruct (p !! l); simpl; [|done].
      by rewrite write_attrs_twice.
    + by rewrite list_lookup_alter_ne.
  - rewrite restyle_all_lookup_notin by done.
    apply elem_of_cons in Hl as [->|Hl]; [|done].
    by rewrite list_lookup_alter_eq.
Qed.

Lemma length_restyle_all (o : obj) (ls : list loc) (p : list element) :
  length (restyle_all o ls p) = length p.
Proof.
  revert p. induction ls as [|x ls IH]; intros p; [done|].
  change (restyle_all o (x :: ls) p)
    with (restyle_all o ls (alter (Raphael.write_attrs o) x p)).
  by rewrite IH, length_alter.
Qed.

Lemma forEach_hideDot_run (col : list loc) (n : nat) (w : world) :
  TuiUtil.forEachArray_from (λ dot _, _hideDot (Some dot)) n col w
  = (Returned tt, set_paper (restyle_all (outDotStyle w) col (paper w)) w).
Proof.
  revert n w. induction col as [|x col IH]; intros n w; simpl.
  - by rewrite set_paper_same.
  - unfold _hideDot at 1. run_monad. by rewrite IH.
Qed.

Lemma hideGroupAnimation_run (w : world) (idx : nat) :
  pivot_consistent w →
  idx < TuiUtil.max_length (groupDots w) →
  hideGroupAnimation idx w =
    (Returned tt,
     World
       (alter (Raphael.write_attrs {[ "stroke-opacity" := VNumber 0 ]}) (tooltipLine w)
          (restyle_all (outDotStyle w) (TuiUtil.column (groupDots w) idx) (paper w)))
       (groupDots w) (Some (TuiUtil.pivot (groupDots w)))
       (outDotStyle w) (tooltipLine w)).
Proof.
  intros Hw Hidx. unfold hideGroupAnimation, _hideGroupDots, _hideTooltipLine.
  unfold mbind at 1 2 3. unfold M_bind.
  destruct (getPivotGroupDots_consistent w Hw) as (Hret & Hg & Hp & Ho & Ht & Hc).
  destruct (_getPivotGroupDots w) as [r w1]. simpl in *. subst r.
  unfold member. rewrite pivot_lookup by done. run_monad.
  rewrite forEach_hideDot_run. run_monad.
  unfold set_paper. simpl. by rewrite Hg, Hp, Ho, Ht, Hc.
Qed.

(** C5: for a column index that some group reaches, with the pivot cache
    empty or in step with [groupDots] and the tooltip line not among the
    column's markers, [hideGroupAnimation idx] returns; every marker
    [groupDots[g][idx]] then carries the out style over its former
    attributes: the fields of the out style that Raphael takes, which is
    the whole out style when all its names are Raphael attributes; the
    tooltip line has stroke opacity 0 and its path, its stroke and every
    other attribute as before; all other elements and the renderer's own
    fields are untouched. *)
Theorem hideGroupAnimation_column (w : world) (idx : nat) :
  pivot_consistent w →
  idx < TuiUtil.max_length (groupDots w) →
  (∀ g row, groupDots w !! g = Some row → row !! idx ≠ Some (tooltipLine w)) →
  ∃ w', hideGroupAnimation idx w = (Returned tt, w')
    ∧ (∀ g row l e,
         groupDots w !! g = Some row → row !! idx = Some l → paper w !! l = Some e →
         ∃ e', paper w' !! l = Some e'
           ∧ restyled (Raphael.accepted (outDotStyle w)) e e'
           ∧ (known_names (outDotStyle w) → restyled (outDotStyle w) e e'))
    ∧ (∀ e, paper w !! tooltipLine w = Some e →
         ∃ e', paper w' !! tooltipLine w = Some e'
           ∧ restyled {[ "stroke-opacity" := VNumber 0 ]} e e'
           ∧ attrs e' !! "stroke-opacity" = Some (VNumber 0)
           ∧ attrs e' !! "path" = attrs e !! "path"
           ∧ attrs e' !! "stroke" = attrs e !! "stroke")
    ∧ (∀ l, l ≠ tooltipLine w →
         (∀ g row, groupDots w !! g = Some row → row !! idx ≠ Some l) →
         paper w' !! l = paper w !! l)
    ∧ groupDots w' = groupDots w
    ∧ outDotStyle w' = outDotStyle w
    ∧ tooltipLine w' = tooltipLine w.
Proof.
  intros Hw Hidx Hline.
  eexists. split; [by apply hideGroupAnimation_run|]. simpl.
  assert (Hnotin : tooltipLine w ∉ TuiUtil.column (groupDots w) idx).
  { intros (g & row & Hg & Hl)%elem_of_column. by apply (Hline g row). }
  split; [|split; [|split; [|done]]].
  - intros g row l e Hg Hl He.
    assert (Hin : l ∈ TuiUtil.column (groupDots w) idx)
      by (apply elem_of_column; eauto).
    exists (Raphael.write_attrs (outDotStyle w) e). split; [|split].
    + rewrite list_lookup_alter_ne by (by intros <-).
      by rewrite restyle_all_lookup_in, He.
    + apply lookup_write_attrs.
    + intros Hknown. by apply lookup_write_attrs_known, accepted_id.
  - intros e He.
    pose proof (lookup_write_attrs_known {[ "stroke-opacity" := VNumber 0 ]} e eq_refl)
      as Hline'.
    exists (Raphael.write_attrs {[ "stroke-opacity" := VNumber 0 ]} e).
    split; [|split; [exact Hline'|]].
    + by rewrite list_lookup_alter_eq, restyle_all_lookup_notin, He.
    + destruct Hline' as [_ Hk]. by rewrite !Hk.
  - intros l Hne Hl. rewrite list_lookup_alter_ne by done.
    apply restyle_all_lookup_notin.
    intros (g & row & Hg & Hx)%elem_of_column. by apply (Hl g row).
Qed.

(** On [grid_world], hiding the last column gives the markers 2 and 5 the
    fill opacity of the out style and the tooltip line stroke opacity 0,
    its path kept. *)
Lemma hideGroupAnimation_column_witness :
  ∃ w', hideGroupAnimation 2 grid_world = (Returned tt, w')
    ∧ (paper w' !! 2 ≫= λ e, attrs e !! "fill-opacity") = Some (VNumber 1)
    ∧ (paper w' !! 5 ≫= λ e, attrs e !! "fill-opacity") = Some (VNumber 1)
    ∧ (paper w' !! 6 ≫= λ e, attrs e !! "stroke-opacity") = Some (VNumber 0)
    ∧ (paper w' !! 6 ≫= λ e, attrs e !! "path") = Some (VString "M10 100L10 0").
Proof.
  assert (H0 : pivot_consistent grid_world) by (by intros p Hp).
  assert (H1 : 2 < TuiUtil.max_length (groupDots grid_world)) by (vm_compute; lia).
  assert (H2 : ∀ g row, groupDots grid_world !! g = Some row →
                 row !! 2 ≠ Some (tooltipLine grid_world)).
  { intros [|[|g]] row Hg; vm_compute in Hg; [| |discriminate Hg];
      injection Hg as <-; vm_compute; intros [=]. }
  destruct (hideGroupAnimation_column grid_world 2 H0 H1 H2)
    as (w' & Hrun & Hdots & Hlin & _).
  exists w'. split; [exact Hrun|].
  destruct (Hdots 0 [0; 1; 2] 2 _ eq_refl eq_refl eq_refl)
    as (e2 & -> & (_ & Hk2) & _).
  destruct (Hdots 1 [3; 4; 5] 5 _ eq_refl eq_refl eq_refl)
    as (e5 & -> & (_ & Hk5) & _).
  destruct (Hlin _ eq_refl) as (e6 & He6 & _ & Ho & Hp & _).
  change (tooltipLine grid_world) with 6 in He6. rewrite He6. simpl.
  by rewrite Hk2, Hk5, Ho, Hp.
Defined.

(** Past the longest group there is no column: the loop over it throws
    and the tooltip line is not reached. *)
Remark hideGroupAnimation_no_column (w : world) (idx : nat) :
  pivot_consistent w →
  TuiUtil.max_length (groupDots w) ≤ idx →
  hideGroupAnimation idx w =
    (Thrown TypeError, set_pivotGroupDots (Some (TuiUtil.pivot (groupDots w))) w).
Proof.
  intros Hw Hidx. unfold hideGroupAnimation, _hideGroupDots.
  unfold mbind at 1 2 3. unfold M_bind.
  destruct (getPivotGroupDots_consistent w Hw) as (Hret & Hg & Hp & Ho & Ht & Hc).
  destruct (_getPivotGroupDots w) as [r w1]. simpl in *. subst r.
  unfold member. rewrite pivot_lookup_ge by done. run_monad.
  unfold set_pivotGroupDots. destruct w1. simpl in *. congruence.
Qed.

(** ** Rendering the dots *)

Lemma renderDot_run (position : Position) (color : value) (w : world) :
  renderDot position color w =
    (Returned (length (paper w)),
     set_paper (paper w ++ [dot_element position color]) w).
Proof.
  unfold renderDot, Raphael.circle. run_monad. unfold set_paper. simpl.
  by rewrite alter_app_r_alt, Nat.sub_diag.
Qed.

Lemma set_paper_twice (p q : list element) (w : world) :
  set_paper q (set_paper p w) = set_paper q w.
Proof. done. Qed.

Lemma bind_run {A B} (m : M A) (f : A → M B) (w w1 : world) (a : A) :
  m w = (Returned a, w1) → (m ≫= f) w = f a w1.
Proof. intros Hm. unfold mbind, M_bind. by rewrite Hm. Qed.

Lemma render_one_run (position : Position) (color : value) (w : world) :
  (dot ← renderDot position color; mret dot) w =
    (Returned (length (paper w)),
     set_paper (paper w ++ [dot_element position color]) w).
Proof. by rewrite (bind_run _ _ _ _ _ (renderDot_run position color w)). Qed.

Lemma map_positions_run (color : value) (positions : list Position) (n : nat) (w : world) :
  TuiUtil.map_from (λ position _, dot ← renderDot position color; mret dot) n positions w
  = (Returned (seq (length (paper w)) (length positions)),
     set_paper (paper w ++ ((λ position, dot_element position color) <$> positions)) w).
Proof.
  revert n w. induction positions as [|x positions IH]; intros n w; simpl.
  - run_monad. by rewrite app_nil_r, set_paper_same.
  - rewrite (bind_run _ _ _ _ _ (render_one_run x color w)).
    rewrite (bind_run _ _ _ _ _ (IH (S n) _)).
    unfold mret, M_ret. cbn [paper set_paper].
    rewrite length_app, Nat.add_1_r, set_paper_twice.
    by rewrite <- app_assoc.
Qed.

Lemma renderDots_run (colors : list string) (groupPositions : list (list Position))
    (n : nat) (w : world) :
  TuiUtil.map_from
    (λ positions groupIndex,
       let color := index_value colors groupIndex in
       TuiUtil.map positions (λ position _, dot ← renderDot position color; mret dot))
    n groupPositions w
  = (Returned (layout (length (paper w)) groupPositions),
     set_paper (paper w ++ rendered_elements colors n groupPositions) w).
Proof.
  revert n w. induction groupPositions as [|ps rest IH]; intros n w; simpl.
  - run_monad. by rewrite app_nil_r, set_paper_same.
  - rewrite (bind_run _ _ _ _ _ (map_positions_run (index_value colors n) ps 0 w)).
    rewrite (bind_run _ _ _ _ _ (IH (S n) _)).
    unfold mret, M_ret. cbn [paper set_paper].
    rewrite length_app, length_fmap, set_paper_twice.
    by rewrite <- app_assoc.
Qed.

Lemma layout_congruent (base : nat) (groupPositions : list (list Position)) :
  congruent (layout base groupPositions) groupPositions.
Proof.
  revert base. induction groupPositions as [|ps rest IH]; intros base; simpl.
  - constructor.
  - constructor; [apply length_seq | apply IH].
Qed.

Lemma concat_layout (base : nat) (groupPositions : list (list Position)) :
  concat (layout base groupPositions) = seq base (length (concat groupPositions)).
Proof.
  revert base. induction groupPositions as [|ps rest IH]; intros base; simpl; [done|].
  by rewrite IH, length_app, seq_app.
Qed.

Lemma rendered_lookup (colors : list string) (groupPositions : list (list Position))
    (n : nat) (p : list element) (g i : nat) (ps : list Position) (pos : Position) :
  groupPositions !! g = Some ps →
  ps !! i = Some pos →
  ∃ row l,
    layout (length p) groupPositions !! g = Some row
    ∧ row !! i = Some l
    ∧ (p ++ rendered_elements colors n groupPositions) !! l
      = Some (dot_element pos (index_value colors (n + g))).
Proof.
  revert n p g. induction groupPositions as [|qs rest IH]; intros n p g Hg Hi; [done|].
  destruct g as [|g]; simpl in *.
  - injection Hg as ->. exists (seq (length p) (length ps)), (length p + i).
    pose proof (lookup_lt_Some _ _ _ Hi) as Hlt.
    split; [done|]. split; [by apply lookup_seq_lt|].
    rewrite lookup_app_r by lia.
    replace (length p + i - length p) with i by lia.
    rewrite lookup_app_l by (by rewrite length_fmap).
    by rewrite list_lookup_fmap, Hi, Nat.add_0_r.
  - destruct (IH (S n) (p ++ ((λ position, dot_element position (index_value colors n)) <$> qs))
                g Hg Hi) as (row & l & Hrow & Hl & He).
    exists row, l. rewrite length_app, length_fmap in Hrow.
    split; [done|]. split; [done|].
    rewrite <- app_assoc in He.
    by replace (n + S g) with (S n + g) by lia.
Qed.

(** C7: with one colour per group, [renderDots] returns a marker table of
    the shape of [groupPositions]; the marker at (g, i) is a new circle of
    radius 3 centred at [groupPositions[g][i]], filled with [colors[g]], of
    fill and stroke opacity 0; the markers are pairwise distinct, and what
    was on the paper before is untouched. *)
Theorem renderDots_congruent (w : world) (groupPositions : list (list Position))
    (colors : list string) :
  length colors = length groupPositions →
  ∃ dots w', renderDots groupPositions colors w = (Returned dots, w')
    ∧ congruent dots groupPositions
    ∧ (∀ g i ps pos, groupPositions !! g = Some ps → ps !! i = Some pos →
         ∃ c row l e,
           colors !! g = Some c ∧ dots !! g = Some row ∧ row !! i = Some l
           ∧ paper w' !! l = Some e
           ∧ attrs e !! "cx" = Some (VNumber (left pos))
           ∧ attrs e !! "cy" = Some (VNumber (top pos))
           ∧ attrs e !! "r" = Some (VNumber 3)
           ∧ attrs e !! "fill" = Some (VString c)
           ∧ attrs e !! "fill-opacity" = Some (VNumber 0)
           ∧ attrs e !! "stroke-opacity" = Some (VNumber 0))
    ∧ NoDup (concat dots)
    ∧ (∀ l, l < length (paper w) → paper w' !! l = paper w !! l)
    ∧ same_fields w w'.
Proof.
  intros Hlen. unfold renderDots, TuiUtil.map at 1.
  eexists _, _. split; [apply renderDots_run|].
  split; [apply layout_congruent|].
  split; [|split; [|split]].
  - intros g i ps pos Hg Hi.
    assert (Hc : is_Some (colors !! g)).
    { apply lookup_lt_is_Some. rewrite Hlen. by apply lookup_lt_Some with ps. }
    destruct Hc as [c Hc].
    destruct (rendered_lookup colors groupPositions 0 (paper w) g i ps pos Hg Hi)
      as (row & l & Hrow & Hl & He).
    exists c, row, l, (dot_element pos (VString c)).
    split; [done|]. split; [done|]. split; [done|].
    split; [|by repeat split].
    simpl in *. unfold index_value in He. by rewrite Hc in He.
  - rewrite concat_layout. apply NoDup_seq.
  - intros l Hl. simpl. by rewrite lookup_app_l.
  - apply same_fields_set_paper.
Qed.

Lemma renderDots_congruent_witness :
  ∃ dots w',
    renderDots ragged_positions ["red"; "green"; "blue"] blank = (Returned dots, w')
    ∧ congruent dots ragged_positions
    ∧ NoDup (concat dots).
Proof.
  destruct (renderDots_congruent blank ragged_positions ["red"; "green"; "blue"] eq_refl)
    as (dots & w' & Hrun & Hshape & _ & Hdistinct & _).
  by exists dots, w'.
Defined.

Example renderDots_ragged :
  (renderDots ragged_positions ["red"; "green"; "blue"] blank).1
  = Returned [[0; 1]; []; [2; 3; 4]].
Proof. reflexivity. Qed.

(** ** Hover handlers *)

Section AttachEvent.

Variables inCallback outCallback : fn.

Lemma bind_row_run (g : nat) (ps : list Position) (dots : list loc)
    (n : nat) (w : world) :
  TuiUtil.forEachArray_from
    (λ dot index,
       position ← member (Some ps) index;
       _bindHoverEvent dot position g index inCallback outCallback)
    n dots w
  = (Returned tt, set_paper (bind_row inCallback outCallback g ps n dots (paper w)) w).
Proof.
  revert n w. induction dots as [|dot dots IH]; intros n w; simpl.
  - by rewrite set_paper_same.
  - assert (Hstep :
      (position ← member (Some ps) n;
       _bindHoverEvent dot position g n inCallback outCallback) w
      = (Returned tt, set_paper (alter (hover_binding inCallback outCallback ps g n) dot (paper w)) w))
      by done.
    rewrite (bind_run _ _ _ _ _ Hstep), IH.
    by rewrite set_paper_twice.
Qed.

Lemma bind_rows_run (groupPositions : list (list Position))
    (groupDots : list (list loc)) (n : nat) (w : world) :
  (∀ i dots, groupDots !! i = Some dots → is_Some (groupPositions !! (n + i))) →
  TuiUtil.forEachArray_from
    (λ dots groupIndex,
       TuiUtil.forEachArray (Some dots) (λ dot index,
         position ← member (groupPositions !! groupIndex) index;
         _bindHoverEvent dot position groupIndex index inCallback outCallback))
    n groupDots w
  = (Returned tt,
     set_paper (bind_rows inCallback outCallback groupPositions n groupDots (paper w)) w).
Proof.
  revert n w. induction groupDots as [|dots rest IH]; intros n w Hrows.
  - simpl. by rewrite set_paper_same.
  - destruct (Hrows 0 dots eq_refl) as [ps Hps].
    rewrite Nat.add_0_r in Hps.
    cbn [TuiUtil.forEachArray_from bind_rows]. unfold TuiUtil.forEachArray at 1.
    rewrite Hps. cbn [default id].
    rewrite (bind_run _ _ _ _ _ (bind_row_run n ps dots 0 w)).
    rewrite IH.
    + by rewrite set_paper_twice.
    + intros i dots' Hi. rewrite Nat.add_succ_comm. by apply (Hrows (S i) dots').
Qed.

Lemma bind_row_miss (g : nat) (ps : list Position) (dots : list loc) (n : nat)
    (p : list element) (l : loc) :
  l ∉ dots → bind_row inCallback outCallback g ps n dots p !! l = p !! l.
Proof.
  revert n p. induction dots as [|dot dots IH]; intros n p Hl; simpl; [done|].
  apply not_elem_of_cons in Hl as [Hne Hl].
  rewrite IH by done. by rewrite list_lookup_alter_ne.
Qed.

Lemma bind_row_hit (g : nat) (ps : list Position) (dots : list loc) (n : nat)
    (p : list element) (i : nat) (l : loc) :
  NoDup dots → dots !! i = Some l →
  bind_row inCallback outCallback g ps n dots p !! l = hover_binding inCallback outCallback ps g (n + i) <$> p !! l.
Proof.
  revert n p i. induction dots as [|dot dots IH]; intros n p i Hnd Hi; [done|].
  apply NoDup_cons in Hnd as [Hdot Hnd]. destruct i as [|i]; simpl in *.
  - injection Hi as ->. rewrite bind_row_miss by done.
    by rewrite list_lookup_alter_eq, Nat.add_0_r.
  - rewrite (IH (S n) _ i) by done.
    rewrite list_lookup_alter_ne.
    + by rewrite Nat.add_succ_comm.
    + intros ->. apply Hdot. by apply list_elem_of_lookup_2 with i.
Qed.

Lemma elem_of_concat_lookup {A} (xss : list (list A)) (g i : nat) (xs : list A) (x : A) :
  xss !! g = Some xs → xs !! i = Some x → x ∈ concat xss.
Proof.
  revert g. induction xss as [|ys xss IH]; intros g Hg Hi; [done|].
  simpl. apply elem_of_app. destruct g as [|g]; simpl in *.
  - left. injection Hg as ->. by apply list_elem_of_lookup_2 with i.
  - right. by apply (IH g).
Qed.

Lemma bind_rows_miss (groupPositions : list (list Position))
    (groupDots : list (list loc)) (n : nat) (p : list element) (l : loc) :
  l ∉ concat groupDots →
  bind_rows inCallback outCallback groupPositions n groupDots p !! l = p !! l.
Proof.
  revert n p. induction groupDots as [|dots rest IH]; intros n p Hl; simpl; [done|].
  simpl in Hl. apply not_elem_of_app in Hl as [Hdots Hrest].
  rewrite IH by done. by apply bind_row_miss.
Qed.

Lemma bind_rows_hit (groupPositions : list (list Position))
    (groupDots : list (list loc)) (n : nat) (p : list element)
    (g i : nat) (dots : list loc) (l : loc) :
  NoDup (concat groupDots) →
  groupDots !! g = Some dots → dots !! i = Some l →
  bind_rows inCallback outCallback groupPositions n groupDots p !! l
  = hover_binding inCallback outCallback
      (default [] (groupPositions !! (n + g))) (n + g) i <$> p !! l.
Proof.
  revert n p g. induction groupDots as [|row rest IH]; intros n p g Hnd Hg Hi; [done|].
  simpl in Hnd. apply NoDup_app in Hnd as (Hrow & Hsep & Hrest).
  destruct g as [|g]; simpl in *.
  - injection Hg as ->.
    rewrite bind_rows_miss.
    + by rewrite (bind_row_hit _ _ _ _ _ i), Nat.add_0_r.
    + apply Hsep. by apply list_elem_of_lookup_2 with i.
  - rewrite (IH (S n) _ g) by done.
    rewrite bind_row_miss.
    + by rewrite Nat.add_succ_comm.
    + intros Hin. apply (Hsep l Hin). by apply (elem_of_concat_lookup rest g i dots).
Qed.

End AttachEvent.

(** C6: on congruent tables of pairwise distinct markers, [attachEvent]
    returns, and from then on the pointer entering the marker of group [g]
    at point [i] adds to what ran before exactly one call, of [inCallback]
    with the arguments ([groupPositions[g][i]], [i], [g]) in this order;
    the pointer leaving it adds exactly one call of [outCallback] with no
    argument. *)
Theorem attachEvent_hover (w : world) (groupDots : list (list loc))
    (groupPositions : list (list Position)) (outDotStyle : obj)
    (inCallback outCallback : fn)
    (g i : nat) (dots : list loc) (l : loc) (ps : list Position) (pos : Position) :
  congruent groupDots groupPositions →
  NoDup (concat groupDots) →
  groupDots !! g = Some dots → dots !! i = Some l →
  groupPositions !! g = Some ps → ps !! i = Some pos →
  l < length (paper w) →
  ∃ w', attachEvent groupDots groupPositions outDotStyle inCallback outCallback w
        = (Returned tt, w')
    ∧ Raphael.hoverEnter l w'
      = Raphael.hoverEnter l w
        ++ [Invoke inCallback [ArgPosition pos; ArgNumber i; ArgNumber g]]
    ∧ Raphael.hoverExit l w' = Raphael.hoverExit l w ++ [Invoke outCallback []]
    ∧ same_fields w w'.
Proof.
  intros Hshape Hdistinct Hg Hi Hps Hpos Hl.
  eexists. split.
  { unfold attachEvent. unfold TuiUtil.forEachArray at 1.
    apply bind_rows_run. intros j row Hj.
    destruct (Forall2_lookup_l _ _ _ _ _ Hshape Hj) as (qs & Hqs & _). eauto. }
  destruct (lookup_lt_is_Some_2 _ _ Hl) as [e He].
  assert (Hafter :
    bind_rows inCallback outCallback groupPositions 0 groupDots (paper w) !! l
    = Some (Raphael.add_hover (HoverIn inCallback (Some pos) i g) (HoverOut outCallback) e)).
  { rewrite (bind_rows_hit _ _ _ _ _ _ g i dots) by done.
    unfold hover_binding. simpl. by rewrite Hps, He; simpl; rewrite Hpos. }
  unfold Raphael.hoverEnter, Raphael.hoverExit. cbn [paper set_paper].
  rewrite Hafter, He. simpl. rewrite !fmap_app. simpl.
  split; [done|]. split; [done|]. apply same_fields_set_paper.
Qed.

(** The spec's sample: after [attachEvent] on [grid_world], entering the
    marker of group 1 at point 2 calls the in callback with its position,
    then 2, then 1; leaving it calls the out callback with nothing. *)
Lemma attachEvent_hover_witness :
  ∃ w', attachEvent (groupDots grid_world) grid_positions (outDotStyle grid_world)
          "onIn" "onOut" grid_world = (Returned tt, w')
    ∧ Raphael.hoverEnter 5 w'
      = [Invoke "onIn" [ArgPosition (at_ 90 20); ArgNumber 2; ArgNumber 1]]
    ∧ Raphael.hoverExit 5 w' = [Invoke "onOut" []].
Proof.
  assert (H1 : congruent (groupDots grid_world) grid_positions)
    by (repeat constructor).
  assert (H2 : NoDup (concat (groupDots grid_world)))
    by (apply (NoDup_seq 0 6)).
  assert (H3 : 5 < length (paper grid_world)) by (vm_compute; lia).
  destruct (attachEvent_hover grid_world (groupDots grid_world) grid_positions
              (outDotStyle grid_world) "onIn" "onOut" 1 2 [3; 4; 5] 5
              [at_ 10 40; at_ 50 30; at_ 90 20] (at_ 90 20)
              H1 H2 eq_refl eq_refl eq_refl eq_refl H3)
    as (w' & Hrun & Hin & Hout & _).
  exists w'. by split; [|split].
Defined.

(** Without a row of positions for a non-empty group of dots the lookup
    of the position throws: congruence is what the caller owes. *)
Example attachEvent_missing_row :
  (attachEvent [[0]] [] ∅ "onIn" "onOut" grid_world).1 = Thrown TypeError.
Proof. reflexivity. Qed.

Lemma makeOutDotStyle_merge_witness :
  makeOutDotStyle (VNumber 1) (makeBorderStyle (VString "#fff") (VNumber 0.5))
    !! "stroke-opacity" = Some (VNumber 0.5)
  ∧ makeOutDotStyle (VNumber 1) (makeBorderStyle (VString "#fff") (VNumber 0.5))
    !! "fill-opacity" = Some (VNumber 1).
Proof.
  destruct (makeOutDotStyle_merge (VNumber 1)
              {[ "stroke" := VString "#fff"; "stroke-width" := VNumber 1;
                 "stroke-opacity" := VNumber 0.5 ]}) as (_ & Hin & Hout).
  split.
  - exact (Hin "stroke-opacity" (VNumber 0.5) eq_refl).
  - exact (Hout "fill-opacity" eq_refl).
Defined.

(** * Further properties *)

(** ** One dot *)

Lemma showAnimation_run (w : world) (data : Data.t) (row : list loc) (l : loc) :
  groupDots w !! Data.index data = Some row →
  row !! Data.groupIndex data = Some l →
  showAnimation data w =
    (Returned tt, set_paper (alter (Raphael.write_attrs showStyle) l (paper w)) w).
Proof.
  intros Hrow Hdot. unfold showAnimation. run_monad.
  rewrite Hrow. simpl. by rewrite Hdot.
Qed.

Lemma hideAnimation_run (w : world) (data : Data.t) (row : list loc) (l : loc) :
  groupDots w !! Data.index data = Some row →
  row !! Data.groupIndex data = Some l →
  hideAnimation data w =
    (Returned tt,
     set_paper (alter (Raphael.write_attrs (outDotStyle w)) l (paper w)) w).
Proof.
  intros Hrow Hdot. unfold hideAnimation, _hideDot. run_monad.
  rewrite Hrow. simpl. by rewrite Hdot.
Qed.

Lemma alter_write_attrs_twice (o : obj) (l : loc) (p : list element) :
  alter (Raphael.write_attrs o) l (alter (Raphael.write_attrs o) l p)
  = alter (Raphael.write_attrs o) l p.
Proof.
  rewrite list_alter_alter_eq. apply list_alter_ext; [|done].
  intros x _. apply write_attrs_twice.
Qed.

Lemma showAnimation_no_marker (w : world) (data : Data.t) :
  marker_at w data = None →
  showAnimation data w = (Thrown TypeError, w).
Proof.
  unfold marker_at, showAnimation. run_monad.
  destruct (groupDots w !! Data.index data) as [row|]; simpl; [|done].
  by intros ->.
Qed.

Lemma hideAnimation_no_dot (w : world) (data : Data.t) (row : list loc) :
  groupDots w !! Data.index data = Some row →
  row !! Data.groupIndex data = None →
  hideAnimation data w = (Returned tt, w).
Proof.
  intros Hrow Hdot. unfold hideAnimation. run_monad.
  rewrite Hrow. simpl. by rewrite Hdot.
Qed.

(** X1: [showAnimation] has no guard: when the payload designates no
    marker, be it that the group row is missing or that the row has no dot
    at the point, it throws a TypeError and leaves the world as it was. *)
Theorem showAnimation_absent_throws (w : world) (data : Data.t) :
  marker_at w data = None →
  showAnimation data w = (Thrown TypeError, w).
Proof. apply showAnimation_no_marker. Qed.

Lemma showAnimation_absent_throws_witness :
  showAnimation (Data.make 3 1) grid_world = (Thrown TypeError, grid_world)
  ∧ showAnimation (Data.make 0 2) grid_world = (Thrown TypeError, grid_world).
Proof.
  split.
  - apply (showAnimation_absent_throws grid_world (Data.make 3 1)). reflexivity.
  - apply (showAnimation_absent_throws grid_world (Data.make 0 2)). reflexivity.
Defined.

(** X2: when the marker [groupDots[data.index][data.groupIndex]] exists,
    [hideAnimation data] returns, lays the cached out style over that
    marker's attributes (the fields of the style that Raphael takes: the
    whole style when all its names are Raphael attributes) and leaves
    every other element, the number of elements and the renderer's fields
    as they were. *)
Theorem hideAnimation_marker (w : world) (data : Data.t)
    (row : list loc) (l : loc) :
  groupDots w !! Data.index data = Some row →
  row !! Data.groupIndex data = Some l →
  ∃ w', hideAnimation data w = (Returned tt, w')
    ∧ (∀ e, paper w !! l = Some e →
         ∃ e', paper w' !! l = Some e'
           ∧ restyled (Raphael.accepted (outDotStyle w)) e e'
           ∧ (known_names (outDotStyle w) → restyled (outDotStyle w) e e'))
    ∧ (∀ l', l' ≠ l → paper w' !! l' = paper w !! l')
    ∧ length (paper w') = length (paper w)
    ∧ same_fields w w'.
Proof.
  intros Hrow Hdot. eexists. split; [by apply (hideAnimation_run w data row l)|].
  cbn [paper set_paper]. split; [|split; [|split]].
  - intros e He. exists (Raphael.write_attrs (outDotStyle w) e). split; [|split].
    + by rewrite list_lookup_alter_eq, He.
    + apply lookup_write_attrs.
    + intros Hknown. by apply lookup_write_attrs_known, accepted_id.
  - intros l' Hne. by rewrite list_lookup_alter_ne.
  - by rewrite length_alter.
  - apply same_fields_set_paper.
Qed.

Lemma hideAnimation_marker_witness :
  ∃ w', hideAnimation (Data.make 2 1) grid_world = (Returned tt, w')
    ∧ (paper w' !! 5 ≫= λ e, attrs e !! "fill-opacity") = Some (VNumber 1)
    ∧ (paper w' !! 2 ≫= λ e, attrs e !! "fill-opacity") = Some (VNumber 0).
Proof.
  destruct (hideAnimation_marker grid_world (Data.make 2 1) [3; 4; 5] 5
              eq_refl eq_refl) as (w' & Hrun & Hdot & Hothers & _).
  exists w'. split; [exact Hrun|]. split.
  - destruct (Hdot _ eq_refl) as (e' & -> & (_ & Hk) & _). simpl. by rewrite Hk.
  - by rewrite Hothers.
Defined.

(** X3: showing a dot twice in a row is showing it once, and hiding it
    twice is hiding it once: same outcome, same world, also when the call
    throws. *)
Theorem animation_twice (w : world) (data : Data.t) :
  (showAnimation data;; showAnimation data) w = showAnimation data w
  ∧ (hideAnimation data;; hideAnimation data) w = hideAnimation data w.
Proof.
  destruct (groupDots w !! Data.index data) as [row|] eqn:Hrow.
  - destruct (row !! Data.groupIndex data) as [l|] eqn:Hdot.
    + split.
      * rewrite (bind_run _ _ _ _ _ (showAnimation_run w data row l Hrow Hdot)).
        rewrite (showAnimation_run _ data row l), (showAnimation_run w data row l);
          [|done..].
        cbn [paper set_paper]. by rewrite alter_write_attrs_twice.
      * rewrite (bind_run _ _ _ _ _ (hideAnimation_run w data row l Hrow Hdot)).
        rewrite (hideAnimation_run _ data row l), (hideAnimation_run w data row l);
          [|done..].
        cbn [paper set_paper outDotStyle]. by rewrite alter_write_attrs_twice.
    + split.
      * unfold mbind, M_bind.
        rewrite (showAnimation_no_marker w data); [done|].
        unfold marker_at. by rewrite Hrow.
      * rewrite (bind_run _ _ _ _ _ (hideAnimation_no_dot w data row Hrow Hdot)).
        done.
  - split; unfold mbind, M_bind.
    + rewrite (showAnimation_no_marker w data); [done|].
      unfold marker_at. by rewrite Hrow.
    + unfold hideAnimation. run_monad. by rewrite Hrow.
Qed.

(** ** Border styles *)

Lemma makeBorderStyle_truthy (borderColor opacity : value) :
  truthy borderColor = true →
  makeBorderStyle borderColor opacity
  = Some {[ "stroke" := borderColor; "stroke-width" := VNumber 1;
            "stroke-opacity" := opacity ]}.
Proof. intros H. unfold makeBorderStyle. by rewrite H. Qed.

(** X4: the out style made from [makeBorderStyle]. With a border colour
    that is truthy it has five fields: the fill opacity and the radius 3
    of the base style, and the stroke, stroke width 1 and stroke opacity of
    the border, the latter in place of the base's 0. With a falsy border
    colour (undefined, the empty string, 0 or NaN) it is the base style of
    three fields. *)
Theorem makeOutDotStyle_border (borderColor opacity borderOpacity : value) :
  (truthy borderColor = true →
     makeOutDotStyle opacity (makeBorderStyle borderColor borderOpacity)
     = {[ "fill-opacity" := opacity; "r" := VNumber 3;
          "stroke" := borderColor; "stroke-width" := VNumber 1;
          "stroke-opacity" := borderOpacity ]})
  ∧ (truthy borderColor = false →
     makeOutDotStyle opacity (makeBorderStyle borderColor borderOpacity)
     = {[ "fill-opacity" := opacity; "stroke-opacity" := VNumber 0;
          "r" := VNumber 3 ]}).
Proof.
  split; intros H.
  - by rewrite makeBorderStyle_truthy.
  - unfold makeBorderStyle. by rewrite H.
Qed.

Example makeOutDotStyle_empty_colour :
  makeOutDotStyle (VNumber 1) (makeBorderStyle (VString "") (VNumber 0.5))
  = makeOutDotStyle (VNumber 1) None.
Proof. reflexivity. Qed.

(** X5: with an out style made from a truthy border colour, the out style
    sets every field the hover style sets; so show then hide on a marker
    that is in the out state gives back the world exactly as it was. *)
Theorem show_then_hide_with_border (w : world) (data : Data.t)
    (row : list loc) (l : loc) (e : element)
    (borderColor opacity borderOpacity : value) :
  truthy borderColor = true →
  outDotStyle w = makeOutDotStyle opacity (makeBorderStyle borderColor borderOpacity) →
  groupDots w !! Data.index data = Some row →
  row !! Data.groupIndex data = Some l →
  paper w !! l = Some e →
  outDotStyle w ⊆ attrs e →
  show_then_hide data w = (Returned tt, w).
Proof.
  intros Hcolour Hstyle Hrow Hdot He Hout.
  rewrite (show_then_hide_run w data row l) by done. f_equal.
  rewrite (alter_fixed _ _ l e); [apply set_paper_same|done|].
  destruct e as [a h]. unfold compose, Raphael.write_attrs. cbn [attrs hovers] in *.
  f_equal. rewrite (assoc_L (∪)).
  assert (Hcover : Raphael.accepted (outDotStyle w) ∪ Raphael.accepted showStyle
                   = outDotStyle w).
  { rewrite Hstyle, makeBorderStyle_truthy by done. reflexivity. }
  rewrite Hcover. by apply map_subseteq_union.
Qed.

Lemma show_then_hide_with_border_witness :
  show_then_hide (Data.make 0 0) border_world = (Returned tt, border_world).
Proof.
  assert (Hout : outDotStyle border_world
                 ⊆ default ∅ (attrs <$> paper border_world !! 0)).
  { replace (default ∅ (attrs <$> paper border_world !! 0))
      with (outDotStyle border_world ∪ default ∅ (attrs <$> paper grid_world !! 0))
      by (vm_compute; reflexivity).
    apply map_union_subseteq_l. }
  destruct (paper border_world !! 0) as [e|] eqn:He;
    [|vm_compute in He; discriminate He].
  assert (H1 : outDotStyle border_world
               = makeOutDotStyle (VNumber 1)
                   (makeBorderStyle (VString "#fff") (VNumber 0.5)))
    by (vm_compute; reflexivity).
  assert (H2 : groupDots border_world !! Data.index (Data.make 0 0) = Some [0; 1; 2])
    by (vm_compute; reflexivity).
  exact (show_then_hide_with_border border_world (Data.make 0 0) [0; 1; 2] 0 e
           (VString "#fff") (VNumber 1) (VNumber 0.5)
           eq_refl H1 H2 eq_refl He Hout).
Defined.

(** ** Showing a column *)

Lemma forEach_showDot_run (col : list loc) (n : nat) (w : world) :
  TuiUtil.forEachArray_from (λ dot _, _showDot (Some dot)) n col w
  = (Returned tt, set_paper (restyle_all showStyle col (paper w)) w).
Proof.
  revert n w. induction col as [|x col IH]; intros n w; simpl.
  - by rewrite set_paper_same.
  - assert (Hstep : _showDot (Some x) w
        = (Returned tt, set_paper (alter (Raphael.write_attrs showStyle) x (paper w)) w))
      by done.
    by rewrite (bind_run _ _ _ _ _ Hstep), IH.
Qed.

Lemma showGroupAnimation_run (util : Position → Position → string)
    (w : world) (idx : nat) (bound : Bound) :
  pivot_consistent w →
  idx < TuiUtil.max_length (groupDots w) →
  showGroupAnimation util idx bound w =
    (Returned tt,
     World
       (alter
          (Raphael.write_attrs
             {[ "path" := VString
                  (util {| left := left (position bound);
                           top := height (dimension bound) |}
                        {| left := left (position bound);
                           top := top (position bound) |});
                "stroke" := VString "#999";
                "stroke-opacity" := VNumber 1 ]})
          (tooltipLine w)
          (restyle_all showStyle (TuiUtil.column (groupDots w) idx) (paper w)))
       (groupDots w) (Some (TuiUtil.pivot (groupDots w)))
       (outDotStyle w) (tooltipLine w)).
Proof.
  intros Hw Hidx. unfold showGroupAnimation, _showGroupDots, _showTooltipLine.
  unfold mbind at 1 2 3. unfold M_bind.
  destruct (getPivotGroupDots_consistent w Hw) as (Hret & Hg & Hp & Ho & Ht & Hc).
  destruct (_getPivotGroupDots w) as [r w1]. simpl in *. subst r.
  unfold member. rewrite pivot_lookup by done. run_monad.
  rewrite forEach_showDot_run. run_monad.
  unfold set_paper. simpl. by rewrite Hg, Hp, Ho, Ht, Hc.
Qed.

Lemma showGroupAnimation_no_column_run (util : Position → Position → string)
    (w : world) (idx : nat) (bound : Bound) :
  pivot_consistent w →
  TuiUtil.max_length (groupDots w) ≤ idx →
  showGroupAnimation util idx bound w =
    (Thrown TypeError, set_pivotGroupDots (Some (TuiUtil.pivot (groupDots w))) w).
Proof.
  intros Hw Hidx. unfold showGroupAnimation, _showGroupDots.
  unfold mbind at 1 2 3. unfold M_bind.
  destruct (getPivotGroupDots_consistent w Hw) as (Hret & Hg & Hp & Ho & Ht & Hc).
  destruct (_getPivotGroupDots w) as [r w1]. simpl in *. subst r.
  unfold member. rewrite pivot_lookup_ge by done. run_monad.
  unfold set_pivotGroupDots. destruct w1. simpl in *. congruence.
Qed.

(** X6: for a column index that some group reaches, with the pivot cache
    empty or in step with [groupDots] and the tooltip line not among the
    column's markers, [showGroupAnimation idx bound] returns; every marker
    [groupDots[g][idx]] carries the hover style over its former attributes;
    the tooltip line has stroke "#999", stroke opacity 1 and as path the
    segment from (bound.position.left, bound.dimension.height) to
    (bound.position.left, bound.position.top), its other attributes kept;
    all other elements are untouched. *)
Theorem showGroupAnimation_column (util : Position → Position → string)
    (w : world) (idx : nat) (bound : Bound) :
  pivot_consistent w →
  idx < TuiUtil.max_length (groupDots w) →
  (∀ g row, groupDots w !! g = Some row → row !! idx ≠ Some (tooltipLine w)) →
  let shown : obj :=
    {[ "fill-opacity" := VNumber 1; "stroke-opacity" := VNumber num_0_3;
       "stroke-width" := VNumber 2; "r" := VNumber 4 ]} in
  let linePath :=
    util {| left := left (position bound); top := height (dimension bound) |}
         {| left := left (position bound); top := top (position bound) |} in
  ∃ w', showGroupAnimation util idx bound w = (Returned tt, w')
    ∧ (∀ g row l e,
         groupDots w !! g = Some row → row !! idx = Some l → paper w !! l = Some e →
         ∃ e', paper w' !! l = Some e' ∧ restyled shown e e')
    ∧ (∀ e, paper w !! tooltipLine w = Some e →
         ∃ e', paper w' !! tooltipLine w = Some e'
           ∧ restyled {[ "path" := VString linePath; "stroke" := VString "#999";
                         "stroke-opacity" := VNumber 1 ]} e e')
    ∧ (∀ l, l ≠ tooltipLine w →
         (∀ g row, groupDots w !! g = Some row → row !! idx ≠ Some l) →
         paper w' !! l = paper w !! l)
    ∧ groupDots w' = groupDots w
    ∧ outDotStyle w' = outDotStyle w
    ∧ tooltipLine w' = tooltipLine w.
Proof.
  intros Hw Hidx Hline shown linePath.
  eexists. split; [by apply showGroupAnimation_run|]. simpl.
  assert (Hnotin : tooltipLine w ∉ TuiUtil.column (groupDots w) idx).
  { intros (g & row & Hg & Hl)%elem_of_column. by apply (Hline g row). }
  repeat split.
  - intros g row l e Hg Hl He.
    assert (Hin : l ∈ TuiUtil.column (groupDots w) idx)
      by (apply elem_of_column; eauto).
    exists (Raphael.write_attrs shown e). split.
    + rewrite list_lookup_alter_ne by (by intros <-).
      by rewrite restyle_all_lookup_in, He.
    + apply lookup_write_attrs.
  - intros e He. eexists. split.
    + by rewrite list_lookup_alter_eq, restyle_all_lookup_notin, He.
    + apply lookup_write_attrs.
  - intros l Hne Hl. rewrite list_lookup_alter_ne by done.
    apply restyle_all_lookup_notin.
    intros (g & row & Hg & Hx)%elem_of_column. by apply (Hl g row).
Qed.

Lemma grid_world_consistent : pivot_consistent grid_world.
Proof. by intros p Hp. Qed.

Lemma grid_world_line (idx : nat) (g : nat) (row : list loc) :
  groupDots grid_world !! g = Some row → row !! idx ≠ Some (tooltipLine grid_world).
Proof.
  intros Hg Hidx.
  destruct g as [|[|g]]; vm_compute in Hg; [| |discriminate Hg];
    injection Hg as <-;
    destruct idx as [|[|[|idx]]]; vm_compute in Hidx; discriminate Hidx.
Qed.

Lemma showGroupAnimation_column_witness :
  ∃ w', showGroupAnimation sample_makeLinePath 2 sample_bound grid_world
        = (Returned tt, w')
    ∧ (paper w' !! 2 ≫= λ e, attrs e !! "r") = Some (VNumber 4)
    ∧ (paper w' !! 5 ≫= λ e, attrs e !! "r") = Some (VNumber 4)
    ∧ (paper w' !! 6 ≫= λ e, attrs e !! "stroke") = Some (VString "#999")
    ∧ (paper w' !! 6 ≫= λ e, attrs e !! "stroke-width") = Some (VNumber 1).
Proof.
  assert (H1 : 2 < TuiUtil.max_length (groupDots grid_world)) by (vm_compute; lia).
  destruct (showGroupAnimation_column sample_makeLinePath grid_world 2 sample_bound
              grid_world_consistent H1 (grid_world_line 2))
    as (w' & Hrun & Hdots & Hlin & _).
  exists w'. split; [exact Hrun|].
  destruct (Hdots 0 [0; 1; 2] 2 _ eq_refl eq_refl eq_refl) as (e2 & -> & _ & Hk2).
  destruct (Hdots 1 [3; 4; 5] 5 _ eq_refl eq_refl eq_refl) as (e5 & -> & _ & Hk5).
  destruct (Hlin _ eq_refl) as (e6 & He6 & _ & Hk6).
  change (tooltipLine grid_world) with 6 in He6. rewrite He6. simpl.
  by rewrite Hk2, Hk5, !Hk6.
Defined.

(** X7: past the longest group there is no column. Both group animations
    then throw a TypeError when they start the loop; the tooltip line and
    every other element are as before, and the only write that stays is
    the pivot put in the cache. *)
Theorem groupAnimation_no_column (util : Position → Position → string)
    (w : world) (idx : nat) (bound : Bound) :
  pivot_consistent w →
  TuiUtil.max_length (groupDots w) ≤ idx →
  showGroupAnimation util idx bound w =
    (Thrown TypeError, set_pivotGroupDots (Some (TuiUtil.pivot (groupDots w))) w)
  ∧ hideGroupAnimation idx w =
    (Thrown TypeError, set_pivotGroupDots (Some (TuiUtil.pivot (groupDots w))) w).
Proof.
  intros Hw Hidx. split.
  - by apply showGroupAnimation_no_column_run.
  - by apply hideGroupAnimation_no_column.
Qed.

Lemma groupAnimation_no_column_witness :
  (showGroupAnimation sample_makeLinePath 3 sample_bound grid_world).1
  = Thrown TypeError
  ∧ paper (hideGroupAnimation 3 grid_world).2 = paper grid_world.
Proof.
  assert (H1 : TuiUtil.max_length (groupDots grid_world) ≤ 3) by (vm_compute; lia).
  destruct (groupAnimation_no_column sample_makeLinePath grid_world 3 sample_bound
              grid_world_consistent H1) as [Hshow Hhide].
  rewrite Hshow, Hhide. split; reflexivity.
Defined.

(** X8: showing a column and then hiding it, under the conditions of X6
    and with the tooltip line on the paper. Both calls return; the tooltip
    line ends with stroke opacity 0 but keeps the path and the stroke "#999"
    that the show gave it; every marker of the column ends with the out
    style, as far as Raphael takes its fields (all of them when all its
    names are Raphael attributes), laid over the hover style laid over its
    former attributes. *)
Theorem showGroup_then_hideGroup (util : Position → Position → string)
    (w : world) (idx : nat) (bound : Bound) (line : element) :
  pivot_consistent w →
  idx < TuiUtil.max_length (groupDots w) →
  (∀ g row, groupDots w !! g = Some row → row !! idx ≠ Some (tooltipLine w)) →
  paper w !! tooltipLine w = Some line →
  let shown : obj :=
    {[ "fill-opacity" := VNumber 1; "stroke-opacity" := VNumber num_0_3;
       "stroke-width" := VNumber 2; "r" := VNumber 4 ]} in
  let out : obj := Raphael.accepted (outDotStyle w) in
  let linePath :=
    util {| left := left (position bound); top := height (dimension bound) |}
         {| left := left (position bound); top := top (position bound) |} in
  ∃ w' line',
    (showGroupAnimation util idx bound;; hideGroupAnimation idx) w = (Returned tt, w')
    ∧ paper w' !! tooltipLine w = Some line'
    ∧ attrs line' !! "path" = Some (VString linePath)
    ∧ attrs line' !! "stroke" = Some (VString "#999")
    ∧ attrs line' !! "stroke-opacity" = Some (VNumber 0)
    ∧ (∀ g row l e,
         groupDots w !! g = Some row → row !! idx = Some l → paper w !! l = Some e →
         paper w' !! l = Some (Element (out ∪ (shown ∪ attrs e)) (hovers e)))
    ∧ (known_names (outDotStyle w) → out = outDotStyle w).
Proof.
  intros Hw Hidx Hline Hl shown out linePath.
  assert (Hnotin : tooltipLine w ∉ TuiUtil.column (groupDots w) idx).
  { intros (g & row & Hg & Hx)%elem_of_column. by apply (Hline g row). }
  rewrite (bind_run _ _ _ _ _ (showGroupAnimation_run util w idx bound Hw Hidx)).
  rewrite hideGroupAnimation_run; [|by intros p [= <-]|done].
  cbn [paper groupDots outDotStyle tooltipLine].
  set (shownLine := ({[ "path" := VString linePath; "stroke" := VString "#999";
                        "stroke-opacity" := VNumber 1 ]} : obj)).
  set (hiddenLine := ({[ "stroke-opacity" := VNumber 0 ]} : obj)).
  eexists _, (Raphael.write_attrs hiddenLine (Raphael.write_attrs shownLine line)).
  split; [reflexivity|]. cbn [paper].
  destruct (lookup_write_attrs_known hiddenLine (Raphael.write_attrs shownLine line)
              eq_refl) as [_ Hhidden].
  destruct (lookup_write_attrs_known shownLine line eq_refl) as [_ Hshown].
  split; [|split; [|split; [|split; [|split]]]].
  - rewrite list_lookup_alter_eq, restyle_all_lookup_notin by done.
    by rewrite list_lookup_alter_eq, restyle_all_lookup_notin, Hl by done.
  - rewrite Hhidden, Hshown. reflexivity.
  - rewrite Hhidden, Hshown. reflexivity.
  - rewrite Hhidden. reflexivity.
  - intros g row l e Hg Hx He.
    assert (Hin : l ∈ TuiUtil.column (groupDots w) idx)
      by (apply elem_of_column; eauto).
    assert (Hne : tooltipLine w ≠ l) by (by intros <-).
    rewrite list_lookup_alter_ne, restyle_all_lookup_in by done.
    by rewrite list_lookup_alter_ne, restyle_all_lookup_in, He by done.
  - apply accepted_id.
Qed.

Lemma showGroup_then_hideGroup_witness :
  ∃ w' line',
    (showGroupAnimation sample_makeLinePath 2 sample_bound;; hideGroupAnimation 2)
      grid_world = (Returned tt, w')
    ∧ paper w' !! 6 = Some line'
    ∧ attrs line' !! "path" = Some (VString "M10 100L10 20")
    ∧ attrs line' !! "stroke-opacity" = Some (VNumber 0).
Proof.
  assert (H1 : 2 < TuiUtil.max_length (groupDots grid_world)) by (vm_compute; lia).
  destruct (showGroup_then_hideGroup sample_makeLinePath grid_world 2 sample_bound _
              grid_world_consistent H1 (grid_world_line 2) eq_refl)
    as (w' & line' & Hrun & Hline & Hpath & _ & Hopacity & _).
  by exists w', line'.
Defined.

(** ** A column, dot by dot *)

Lemma lookup_group_middle (pre rest : list (list loc)) (row : list loc) :
  (pre ++ row :: rest) !! length pre = Some row.
Proof. by rewrite list_lookup_middle. Qed.

Lemma run_cons (util : Position → Position → string) (a : action)
    (acts : list action) (w : world) :
  run util (a :: acts) w = run util acts (perform util a w).2.
Proof. done. Qed.

Lemma column_cons {A} (row : list A) (rest : list (list A)) (idx : nat) :
  TuiUtil.column (row :: rest) idx
  = match row !! idx with
    | Some x => x :: TuiUtil.column rest idx
    | None => TuiUtil.column rest idx
    end.
Proof. done. Qed.

Lemma run_show_payloads (util : Position → Position → string) (idx : nat)
    (rest pre : list (list loc)) (w : world) :
  groupDots w = pre ++ rest →
  run util (ShowAnimation <$> column_payloads_from (length pre) rest idx) w
  = set_paper (restyle_all showStyle (TuiUtil.column rest idx) (paper w)) w.
Proof.
  revert pre w. induction rest as [|row rest IH]; intros pre w Hgd.
  - simpl. by rewrite set_paper_same.
  - assert (Hrest : groupDots w = (pre ++ [row]) ++ rest)
      by (by rewrite <- app_assoc).
    assert (Hlen : S (length pre) = length (pre ++ [row]))
      by (rewrite length_app; simpl; lia).
    rewrite column_cons. cbn [column_payloads_from].
    destruct (row !! idx) as [l|] eqn:Hl.
    + rewrite fmap_cons, run_cons. cbn [perform].
      rewrite (showAnimation_run w (Data.make idx (length pre)) row l);
        [|by rewrite Hgd; apply lookup_group_middle|done].
      cbn [snd]. rewrite Hlen, IH by done.
      by rewrite set_paper_twice.
    + rewrite Hlen. by apply IH.
Qed.

Lemma run_hide_payloads (util : Position → Position → string) (idx : nat)
    (rest pre : list (list loc)) (w : world) :
  groupDots w = pre ++ rest →
  run util (HideAnimation <$> column_payloads_from (length pre) rest idx) w
  = set_paper (restyle_all (outDotStyle w) (TuiUtil.column rest idx) (paper w)) w.
Proof.
  revert pre w. induction rest as [|row rest IH]; intros pre w Hgd.
  - simpl. by rewrite set_paper_same.
  - assert (Hrest : groupDots w = (pre ++ [row]) ++ rest)
      by (by rewrite <- app_assoc).
    assert (Hlen : S (length pre) = length (pre ++ [row]))
      by (rewrite length_app; simpl; lia).
    rewrite column_cons. cbn [column_payloads_from].
    destruct (row !! idx) as [l|] eqn:Hl.
    + rewrite fmap_cons, run_cons. cbn [perform].
      rewrite (hideAnimation_run w (Data.make idx (length pre)) row l);
        [|by rewrite Hgd; apply lookup_group_middle|done].
      cbn [snd]. rewrite Hlen, IH by done.
      by rewrite set_paper_twice.
    + rewrite Hlen. by apply IH.
Qed.

(** X9: a group animation is the dot animation of every marker of the
    column, followed by the tooltip line. For a column index that some
    group reaches and a pivot cache that is empty or in step with
    [groupDots], the paper after [showGroupAnimation idx bound] is the
    paper after [showAnimation {groupIndex: idx, index: g}] for every group
    [g] with a point at [idx], in group order, and [_showTooltipLine bound];
    likewise for the hide. *)
Theorem groupAnimation_dot_by_dot (util : Position → Position → string)
    (w : world) (idx : nat) (bound : Bound) :
  pivot_consistent w →
  idx < TuiUtil.max_length (groupDots w) →
  paper (showGroupAnimation util idx bound w).2
  = paper (_showTooltipLine util bound
             (run util (ShowAnimation <$> column_payloads (groupDots w) idx) w)).2
  ∧ paper (hideGroupAnimation idx w).2
  = paper (_hideTooltipLine
             (run util (HideAnimation <$> column_payloads (groupDots w) idx) w)).2.
Proof.
  intros Hw Hidx. unfold column_payloads.
  pose proof (run_show_payloads util idx (groupDots w) [] w eq_refl) as Hshow.
  pose proof (run_hide_payloads util idx (groupDots w) [] w eq_refl) as Hhide.
  cbn [length] in Hshow, Hhide. split.
  - by rewrite showGroupAnimation_run, Hshow by done.
  - by rewrite hideGroupAnimation_run, Hhide by done.
Qed.

Lemma groupAnimation_dot_by_dot_witness :
  column_payloads (groupDots grid_world) 2 = [Data.make 2 0; Data.make 2 1]
  ∧ paper (hideGroupAnimation 2 grid_world).2
    = paper (_hideTooltipLine
               (run sample_makeLinePath
                  [HideAnimation (Data.make 2 0); HideAnimation (Data.make 2 1)]
                  grid_world)).2.
Proof.
  assert (H1 : 2 < TuiUtil.max_length (groupDots grid_world)) by (vm_compute; lia).
  split; [reflexivity|].
  exact (proj2 (groupAnimation_dot_by_dot sample_makeLinePath grid_world 2
                  sample_bound grid_world_consistent H1)).
Defined.

(** ** Rendering, for any colours *)

Lemma length_rendered_elements (colors : list string) (n : nat)
    (groupPositions : list (list Position)) :
  length (rendered_elements colors n groupPositions) = length (concat groupPositions).
Proof.
  revert n. induction groupPositions as [|ps rest IH]; intros n; simpl; [done|].
  by rewrite !length_app, length_fmap, IH.
Qed.

(** X10: [renderDots] never throws, whatever the list of colours. It adds
    one element per position and nothing else; the references it returns
    are, read group after group, exactly the new elements in the order of
    creation; each new element has no hover handler, and its fill is the
    colour of its group, or undefined when [colors] has no entry for the
    group. *)
Theorem renderDots_any_colors (w : world) (groupPositions : list (list Position))
    (colors : list string) :
  ∃ dots w', renderDots groupPositions colors w = (Returned dots, w')
    ∧ concat dots = seq (length (paper w)) (length (concat groupPositions))
    ∧ length (paper w') = length (paper w) + length (concat groupPositions)
    ∧ (∀ g i ps pos, groupPositions !! g = Some ps → ps !! i = Some pos →
         ∃ row l e,
           dots !! g = Some row ∧ row !! i = Some l ∧ paper w' !! l = Some e
           ∧ hovers e = []
           ∧ attrs e !! "fill"
             = Some (match colors !! g with
                     | Some c => VString c
                     | None => VUndefined
                     end)).
Proof.
  unfold renderDots, TuiUtil.map at 1.
  eexists _, _. split; [apply renderDots_run|].
  split; [apply concat_layout|].
  split; [by cbn [paper set_paper]; rewrite length_app, length_rendered_elements|].
  intros g i ps pos Hg Hi.
  destruct (rendered_lookup colors groupPositions 0 (paper w) g i ps pos Hg Hi)
    as (row & l & Hrow & Hl & He).
  by exists row, l, (dot_element pos (index_value colors g)).
Qed.

Example renderDots_without_colors :
  (paper (renderDots ragged_positions [] blank).2 !! 4 ≫= λ e, attrs e !! "fill")
  = Some VUndefined.
Proof. reflexivity. Qed.

(** ** From rendering to hovering *)

Lemma attachEvent_run (w : world) (groupDots : list (list loc))
    (groupPositions : list (list Position)) (style : obj)
    (inCallback outCallback : fn) :
  (∀ g dots, groupDots !! g = Some dots → is_Some (groupPositions !! g)) →
  attachEvent groupDots groupPositions style inCallback outCallback w
  = (Returned tt,
     set_paper (bind_rows inCallback outCallback groupPositions 0 groupDots (paper w)) w).
Proof.
  intros Hrows. unfold attachEvent. unfold TuiUtil.forEachArray at 1.
  by apply bind_rows_run.
Qed.

Lemma congruent_rows {A B} (xs : list (list A)) (ys : list (list B))
    (g : nat) (x : list A) :
  congruent xs ys → xs !! g = Some x → is_Some (ys !! g).
Proof.
  intros Hshape Hg.
  destruct (Forall2_lookup_l _ _ _ _ _ Hshape Hg) as (y & Hy & _). eauto.
Qed.

(** X11: dots rendered by [renderDots] and wired by [attachEvent] with the
    same positions. Both calls return, for any positions and colours, and
    for every position [groupPositions[g][i]] the marker at (g, i) answers
    a hover-enter with exactly one call, [inCallback(position, i, g)], and
    a hover-exit with exactly one call, [outCallback()]. *)
Theorem rendered_dots_hover (w : world) (groupPositions : list (list Position))
    (colors : list string) (style : obj) (inCallback outCallback : fn)
    (g i : nat) (ps : list Position) (pos : Position) :
  groupPositions !! g = Some ps →
  ps !! i = Some pos →
  ∃ dots w1 w2 row l,
    renderDots groupPositions colors w = (Returned dots, w1)
    ∧ attachEvent dots groupPositions style inCallback outCallback w1
      = (Returned tt, w2)
    ∧ dots !! g = Some row ∧ row !! i = Some l
    ∧ Raphael.hoverEnter l w2
      = [Invoke inCallback [ArgPosition pos; ArgNumber i; ArgNumber g]]
    ∧ Raphael.hoverExit l w2 = [Invoke outCallback []].
Proof.
  intros Hg Hi.
  destruct (rendered_lookup colors groupPositions 0 (paper w) g i ps pos Hg Hi)
    as (row & l & Hrow & Hl & He).
  eexists _, _, _, row, l.
  split; [unfold renderDots, TuiUtil.map at 1; apply renderDots_run|].
  split.
  { apply attachEvent_run. intros j dots Hj.
    exact (congruent_rows _ _ j dots
             (layout_congruent (length (paper w)) groupPositions) Hj). }
  split; [done|]. split; [done|].
  assert (Hafter :
    bind_rows inCallback outCallback groupPositions 0
      (layout (length (paper w)) groupPositions)
      (paper w ++ rendered_elements colors 0 groupPositions) !! l
    = Some (Raphael.add_hover (HoverIn inCallback (Some pos) i g) (HoverOut outCallback)
              (dot_element pos (index_value colors (0 + g))))).
  { rewrite (bind_rows_hit _ _ _ _ _ _ g i row) by
      (rewrite ?concat_layout; done || apply NoDup_seq).
    unfold hover_binding. simpl. by rewrite Hg, He; simpl; rewrite Hi. }
  unfold Raphael.hoverEnter, Raphael.hoverExit. cbn [paper set_paper].
  by rewrite Hafter.
Qed.

Lemma rendered_dots_hover_witness :
  ∃ dots w1 w2,
    renderDots ragged_positions ["red"; "green"; "blue"] blank = (Returned dots, w1)
    ∧ attachEvent dots ragged_positions ∅ "onIn" "onOut" w1 = (Returned tt, w2)
    ∧ Raphael.hoverEnter 3 w2
      = [Invoke "onIn" [ArgPosition (at_ 50 30); ArgNumber 1; ArgNumber 2]].
Proof.
  destruct (rendered_dots_hover blank ragged_positions ["red"; "green"; "blue"] ∅
              "onIn" "onOut" 2 1 _ (at_ 50 30) eq_refl eq_refl)
    as (dots & w1 & w2 & row & l & Hrender & Hattach & Hrow & Hl & Hin & _).
  exists dots, w1, w2. split; [exact Hrender|]. split; [exact Hattach|].
  assert (Hdots : dots = [[0; 1]; []; [2; 3; 4]]).
  { assert (H := f_equal fst Hrender). by injection H as <-. }
  subst dots. injection Hrow as <-. injection Hl as <-. exact Hin.
Defined.

(** ** Tables that do not match *)

Lemma hover_after_bind_rows (inCallback outCallback : fn)
    (groupPositions : list (list Position)) (groupDots : list (list loc))
    (p : list element) (g i : nat) (dots : list loc) (l : loc)
    (ps : list Position) (e : element) :
  NoDup (concat groupDots) →
  groupDots !! g = Some dots → dots !! i = Some l →
  groupPositions !! g = Some ps →
  p !! l = Some e →
  bind_rows inCallback outCallback groupPositions 0 groupDots p !! l
  = Some (Raphael.add_hover (HoverIn inCallback (ps !! i) i g) (HoverOut outCallback) e).
Proof.
  intros Hdistinct Hg Hi Hps He.
  rewrite (bind_rows_hit _ _ _ _ _ _ g i dots) by done.
  unfold hover_binding. simpl. by rewrite Hps, He.
Qed.

(** X12: a row of positions shorter than its row of dots is no error.
    When every group of dots has a row of positions, [attachEvent] returns,
    and a dot past the end of its row of positions gets handlers all the
    same: entering it calls [inCallback(undefined, i, g)]. *)
Theorem attachEvent_short_positions (w : world) (groupDots : list (list loc))
    (groupPositions : list (list Position)) (outDotStyle : obj)
    (inCallback outCallback : fn)
    (g i : nat) (dots : list loc) (l : loc) (ps : list Position) :
  (∀ j row, groupDots !! j = Some row → is_Some (groupPositions !! j)) →
  NoDup (concat groupDots) →
  groupDots !! g = Some dots → dots !! i = Some l →
  groupPositions !! g = Some ps → ps !! i = None →
  l < length (paper w) →
  ∃ w', attachEvent groupDots groupPositions outDotStyle inCallback outCallback w
        = (Returned tt, w')
    ∧ Raphael.hoverEnter l w'
      = Raphael.hoverEnter l w
        ++ [Invoke inCallback [ArgUndefined; ArgNumber i; ArgNumber g]].
Proof.
  intros Hrows Hdistinct Hg Hi Hps Hpos Hl.
  eexists. split; [by apply attachEvent_run|].
  destruct (lookup_lt_is_Some_2 _ _ Hl) as [e He].
  unfold Raphael.hoverEnter. cbn [paper set_paper].
  rewrite (hover_after_bind_rows _ _ _ _ _ g i dots l ps e), He by done.
  rewrite Hpos. simpl. by rewrite fmap_app.
Qed.

Lemma attachEvent_short_positions_witness :
  ∃ w', attachEvent (groupDots grid_world) [[at_ 10 80]; [at_ 10 40]] ∅
          "onIn" "onOut" grid_world = (Returned tt, w')
    ∧ Raphael.hoverEnter 5 w'
      = [Invoke "onIn" [ArgUndefined; ArgNumber 2; ArgNumber 1]].
Proof.
  assert (H1 : ∀ j row, groupDots grid_world !! j = Some row →
                 is_Some ([[at_ 10 80]; [at_ 10 40]] !! j)).
  { intros [|[|j]] row Hj; vm_compute in Hj; [eauto|eauto|discriminate Hj]. }
  assert (H2 : NoDup (concat (groupDots grid_world))) by (apply (NoDup_seq 0 6)).
  assert (H3 : 5 < length (paper grid_world)) by (vm_compute; lia).
  exact (attachEvent_short_positions grid_world (groupDots grid_world)
           [[at_ 10 80]; [at_ 10 40]] ∅ "onIn" "onOut" 1 2 [3; 4; 5] 5 [at_ 10 40]
           H1 H2 eq_refl eq_refl eq_refl eq_refl H3).
Defined.

Lemma bind_rows_no_positions (inCallback outCallback : fn)
    (groupPositions : list (list Position)) (groupDots : list (list loc))
    (n g : nat) (dots : list loc) (w : world) :
  groupDots !! g = Some dots → dots ≠ [] →
  groupPositions !! (n + g) = None →
  (TuiUtil.forEachArray_from
     (λ dots groupIndex,
        TuiUtil.forEachArray (Some dots) (λ dot index,
          position ← member (groupPositions !! groupIndex) index;
          _bindHoverEvent dot position groupIndex index inCallback outCallback))
     n groupDots w).1
  = Thrown TypeError.
Proof.
  revert n g w. induction groupDots as [|row rest IH]; intros n g w Hg Hdots Hps; [done|].
  cbn [TuiUtil.forEachArray_from]. unfold mbind, M_bind.
  destruct g as [|g]; simpl in Hg.
  - injection Hg as ->. rewrite Nat.add_0_r in Hps.
    destruct dots as [|dot dots]; [done|].
    simpl. unfold mbind, M_bind. by rewrite Hps.
  - destruct (TuiUtil.forEachArray (Some row) _ w) as [[[]|[]] w1]; [|done].
    apply (IH (S n) g w1 Hg Hdots). by rewrite Nat.add_succ_comm.
Qed.

(** X13: a non-empty group of dots without a row of positions makes
    [attachEvent] throw a TypeError, when it reads the position of a dot
    of the first such group. *)
Theorem attachEvent_missing_positions (w : world) (groupDots : list (list loc))
    (groupPositions : list (list Position)) (outDotStyle : obj)
    (inCallback outCallback : fn) (g : nat) (dots : list loc) :
  groupDots !! g = Some dots → dots ≠ [] →
  groupPositions !! g = None →
  (attachEvent groupDots groupPositions outDotStyle inCallback outCallback w).1
  = Thrown TypeError.
Proof.
  intros Hg Hdots Hps. unfold attachEvent. unfold TuiUtil.forEachArray at 1.
  by apply (bind_rows_no_positions _ _ _ _ 0 g dots).
Qed.

Lemma attachEvent_missing_positions_witness :
  (attachEvent (groupDots grid_world) [[at_ 10 80; at_ 50 60; at_ 90 70]] ∅
     "onIn" "onOut" grid_world).1
  = Thrown TypeError.
Proof.
  apply (attachEvent_missing_positions grid_world (groupDots grid_world)
           [[at_ 10 80; at_ 50 60; at_ 90 70]] ∅ "onIn" "onOut" 1 [3; 4; 5]);
    done.
Defined.

Lemma length_bind_row (inCallback outCallback : fn) (g : nat) (ps : list Position)
    (dots : list loc) (n : nat) (p : list element) :
  length (bind_row inCallback outCallback g ps n dots p) = length p.
Proof.
  revert n p. induction dots as [|dot dots IH]; intros n p; simpl; [done|].
  by rewrite IH, length_alter.
Qed.

Lemma length_bind_rows (inCallback outCallback : fn)
    (groupPositions : list (list Position)) (groupDots : list (list loc))
    (n : nat) (p : list element) :
  length (bind_rows inCallback outCallback groupPositions n groupDots p) = length p.
Proof.
  revert n p. induction groupDots as [|dots rest IH]; intros n p; simpl; [done|].
  by rewrite IH, length_bind_row.
Qed.

(** X14: [attachEvent] adds handlers, it never replaces them. After two
    calls on the same congruent tables, with callbacks of their own, a
    hover-enter on the marker at (g, i) runs what ran before, then the
    first in-callback, then the second, each with (position, i, g). *)
Theorem attachEvent_twice (w : world) (groupDots : list (list loc))
    (groupPositions : list (list Position)) (style1 style2 : obj)
    (in1 out1 in2 out2 : fn)
    (g i : nat) (dots : list loc) (l : loc) (ps : list Position) (pos : Position) :
  congruent groupDots groupPositions →
  NoDup (concat groupDots) →
  groupDots !! g = Some dots → dots !! i = Some l →
  groupPositions !! g = Some ps → ps !! i = Some pos →
  l < length (paper w) →
  ∃ w', (attachEvent groupDots groupPositions style1 in1 out1;;
         attachEvent groupDots groupPositions style2 in2 out2) w
        = (Returned tt, w')
    ∧ Raphael.hoverEnter l w'
      = Raphael.hoverEnter l w
        ++ [Invoke in1 [ArgPosition pos; ArgNumber i; ArgNumber g];
            Invoke in2 [ArgPosition pos; ArgNumber i; ArgNumber g]]
    ∧ Raphael.hoverExit l w'
      = Raphael.hoverExit l w ++ [Invoke out1 []; Invoke out2 []].
Proof.
  intros Hshape Hdistinct Hg Hi Hps Hpos Hl.
  assert (Hrows : ∀ j row, groupDots !! j = Some row → is_Some (groupPositions !! j))
    by (intros j row Hj; exact (congruent_rows _ _ j row Hshape Hj)).
  destruct (lookup_lt_is_Some_2 _ _ Hl) as [e He].
  rewrite (bind_run _ _ _ _ _ (attachEvent_run w _ _ style1 in1 out1 Hrows)).
  rewrite attachEvent_run by done.
  eexists. split; [reflexivity|].
  unfold Raphael.hoverEnter, Raphael.hoverExit. cbn [paper set_paper].
  rewrite (hover_after_bind_rows in2 out2 _ _ _ g i dots l ps _ Hdistinct Hg Hi Hps
             (hover_after_bind_rows in1 out1 _ _ _ g i dots l ps e Hdistinct Hg Hi Hps He)).
  rewrite He, Hpos. simpl. rewrite !fmap_app, <- !app_assoc. done.
Qed.

Lemma attachEvent_twice_witness :
  ∃ w', (attachEvent (groupDots grid_world) grid_positions ∅ "in1" "out1";;
         attachEvent (groupDots grid_world) grid_positions ∅ "in2" "out2") grid_world
        = (Returned tt, w')
    ∧ Raphael.hoverExit 5 w' = [Invoke "out1" []; Invoke "out2" []].
Proof.
  assert (H1 : congruent (groupDots grid_world) grid_positions)
    by (repeat constructor).
  assert (H2 : NoDup (concat (groupDots grid_world))) by (apply (NoDup_seq 0 6)).
  assert (H3 : 5 < length (paper grid_world)) by (vm_compute; lia).
  destruct (attachEvent_twice grid_world (groupDots grid_world) grid_positions ∅ ∅
              "in1" "out1" "in2" "out2" 1 2 [3; 4; 5] 5
              [at_ 10 40; at_ 50 30; at_ 90 20] (at_ 90 20)
              H1 H2 eq_refl eq_refl eq_refl eq_refl H3)
    as (w' & Hrun & _ & Hout).
  by exists w'.
Defined.

(** ** What the methods leave untouched *)

Section Stays.

Variable R : world → world → Prop.
Hypothesis R_refl : ∀ w, R w w.
Hypothesis R_trans : ∀ w1 w2 w3, R w1 w2 → R w2 w3 → R w1 w3.

Lemma stays_ret {A} (a : A) : stays R (mret a).
Proof. intros w. apply R_refl. Qed.

Lemma stays_throw {A} (e : error) : stays R (@throw A e).
Proof. intros w. apply R_refl. Qed.

Lemma stays_member {A} (arr : option (list A)) (i : nat) : stays R (member arr i).
Proof. destruct arr; [apply stays_ret | apply stays_throw]. Qed.

Lemma stays_bind {A B} (m : M A) (f : A → M B) :
  stays R m → (∀ a, stays R (f a)) → stays R (m ≫= f).
Proof.
  intros Hm Hf w. unfold mbind, M_bind.
  specialize (Hm w). destruct (m w) as [[a|e] w1]; simpl in *; [|done].
  apply (R_trans _ w1); [done | apply Hf].
Qed.

Lemma stays_get_bind {B} (f : world → M B) :
  (∀ w, R w (f w w).2) → stays R (get ≫= f).
Proof. intros Hf w. apply Hf. Qed.

Lemma stays_forEachArray_from {A} (iteratee : A → nat → M unit) (arr : list A) :
  (∀ x i, stays R (iteratee x i)) →
  ∀ n, stays R (TuiUtil.forEachArray_from iteratee n arr).
Proof.
  intros Hit. induction arr as [|x rest IH]; intros n; simpl.
  - apply stays_ret.
  - apply stays_bind; [apply Hit | intros _; apply IH].
Qed.

Lemma stays_forEachArray {A} (arr : option (list A)) (iteratee : A → nat → M unit) :
  (∀ x i, stays R (iteratee x i)) → stays R (TuiUtil.forEachArray arr iteratee).
Proof.
  intros Hit. destruct arr; simpl.
  - by apply stays_forEachArray_from.
  - apply stays_throw.
Qed.

End Stays.

Lemma handlers_only_refl (w : world) : handlers_only w w.
Proof. repeat split. intros l e He. by exists e. Qed.

Lemma handlers_only_trans (w1 w2 w3 : world) :
  handlers_only w1 w2 → handlers_only w2 w3 → handlers_only w1 w3.
Proof.
  intros ((Hg1 & Hp1 & Ho1 & Ht1) & Hlen1 & He1) ((Hg2 & Hp2 & Ho2 & Ht2) & Hlen2 & He2).
  split; [|split].
  - repeat split; congruence.
  - congruence.
  - intros l e He. destruct (He1 l e He) as (e' & He' & Ha' & Hh').
    destruct (He2 l e' He') as (e'' & He'' & Ha'' & Hh'').
    exists e''. split; [done|]. split; [congruence|]. by transitivity (hovers e').
Qed.

Lemma handlers_only_hover (l : loc) (f_in f_out : closure) :
  stays handlers_only (Raphael.hover l f_in f_out).
Proof.
  intros w. unfold Raphael.hover, modify. cbn [snd].
  split; [apply same_fields_set_paper|]. cbn [paper set_paper].
  split; [apply length_alter|].
  intros l' e He. destruct (decide (l = l')) as [<-|Hne].
  - exists (Raphael.add_hover f_in f_out e).
    rewrite list_lookup_alter_eq, He. split; [done|]. split; [done|].
    by apply prefix_app_r.
  - exists e. by rewrite list_lookup_alter_ne.
Qed.

(** X15: [attachEvent] only adds hover handlers, whether it returns or
    throws part of the way: the renderer's fields and the number of
    elements are as before, and every element keeps its attributes and,
    at the head of its handlers, the handlers it had. *)
Theorem attachEvent_handlers_only (w : world) (groupDots : list (list loc))
    (groupPositions : list (list Position)) (outDotStyle : obj)
    (inCallback outCallback : fn) :
  handlers_only w
    (attachEvent groupDots groupPositions outDotStyle inCallback outCallback w).2.
Proof.
  revert w.
  pose proof handlers_only_refl as Hrefl. pose proof handlers_only_trans as Htrans.
  apply stays_forEachArray; [done..|]. intros dots g.
  apply stays_forEachArray; [done..|]. intros dot i.
  apply stays_bind; [done| |]; [by apply stays_member|].
  intros position. apply handlers_only_hover.
Qed.

Lemma restyles_only_refl (w : world) : restyles_only w w.
Proof. by repeat split. Qed.

Lemma restyles_only_trans (w1 w2 w3 : world) :
  restyles_only w1 w2 → restyles_only w2 w3 → restyles_only w1 w3.
Proof.
  intros (Hg1 & Ho1 & Ht1 & Hlen1 & Hh1 & Hk1) (Hg2 & Ho2 & Ht2 & Hlen2 & Hh2 & Hk2).
  split; [congruence|]. split; [congruence|]. split; [congruence|].
  split; [congruence|]. split.
  - intros l. by rewrite Hh2, Hh1.
  - intros l k Hk. rewrite Hk2, Hk1; [done..|].
    unfold style_key in *. by rewrite Ho1.
Qed.

Lemma restyles_only_attr (w : world) (dot : option loc) (o : obj) :
  (∀ k, is_Some (o !! k) → style_key w k) →
  restyles_only w (Raphael.attr dot o w).2.
Proof.
  intros Hkeys. destruct dot as [l|]; [|apply restyles_only_refl].
  unfold Raphael.attr, modify. cbn [snd].
  repeat split; cbn [paper set_paper].
  - apply length_alter.
  - intros l'. destruct (decide (l = l')) as [<-|Hne].
    + rewrite list_lookup_alter_eq. by destruct (paper w !! l).
    + by rewrite list_lookup_alter_ne.
  - intros l' k Hk. destruct (decide (l = l')) as [<-|Hne].
    + rewrite list_lookup_alter_eq. destruct (paper w !! l) as [e|]; [|done].
      cbn [mbind option_bind fmap option_fmap option_map attrs Raphael.write_attrs].
      apply lookup_union_r, accepted_None.
      destruct (o !! k) eqn:Hok; [|done]. destruct Hk. apply Hkeys. by rewrite Hok.
    + by rewrite list_lookup_alter_ne.
Qed.

Lemma restyles_only_set_pivotGroupDots (d : option (list (list loc))) (w : world) :
  restyles_only w (set_pivotGroupDots d w).
Proof. by repeat split. Qed.

Lemma showStyle_keys (w : world) (k : string) :
  is_Some (showStyle !! k) → style_key w k.
Proof.
  intros [v Hk]. left. unfold showStyle in Hk.
  repeat (apply lookup_insert_Some in Hk as [[<- _]|[_ Hk]]; [set_solver|]).
  apply lookup_singleton_Some in Hk as [<- _]. set_solver.
Qed.

Lemma restyles_only_showDot (dot : option loc) : stays restyles_only (_showDot dot).
Proof. intros w. apply restyles_only_attr. apply showStyle_keys. Qed.

Lemma restyles_only_hideDot (dot : option loc) : stays restyles_only (_hideDot dot).
Proof.
  apply stays_get_bind. intros w. apply restyles_only_attr.
  intros k Hk. by right.
Qed.

Lemma restyles_only_getPivotGroupDots : stays restyles_only _getPivotGroupDots.
Proof.
  intros w. destruct (pivotGroupDots w) as [p|] eqn:Hp.
  - rewrite (getPivotGroupDots_cached w p Hp). apply restyles_only_refl.
  - rewrite (getPivotGroupDots_first w Hp). apply restyles_only_set_pivotGroupDots.
Qed.

Lemma restyles_only_perform (util : Position → Position → string) (a : action) :
  is_animation a → stays restyles_only (perform util a).
Proof.
  pose proof restyles_only_refl as Hrefl. pose proof restyles_only_trans as Htrans.
  destruct a as [| data | data | idx bound | idx]; intros Ha; [done|..]; simpl.
  - apply stays_get_bind. intros w.
    apply stays_bind; [done| |]; [by apply stays_member|].
    intros dot. apply restyles_only_showDot.
  - apply stays_get_bind. intros w.
    apply stays_bind; [done| |]; [by apply stays_member|].
    intros [l|]; [apply restyles_only_hideDot | by apply stays_ret].
  - apply stays_bind; [done| |].
    + apply stays_bind; [done|apply restyles_only_getPivotGroupDots|]. intros dots.
      apply stays_bind; [done| |]; [by apply stays_member|]. intros col.
      apply stays_forEachArray; [done..|]. intros dot _. apply restyles_only_showDot.
    + intros _. apply stays_get_bind. intros w. apply restyles_only_attr.
      intros k [v Hk]. left.
      repeat (apply lookup_insert_Some in Hk as [[<- _]|[_ Hk]]; [set_solver|]).
      apply lookup_singleton_Some in Hk as [<- _]. set_solver.
  - apply stays_bind; [done| |].
    + apply stays_bind; [done|apply restyles_only_getPivotGroupDots|]. intros dots.
      apply stays_bind; [done| |]; [by apply stays_member|]. intros col.
      apply stays_forEachArray; [done..|]. intros dot _. apply restyles_only_hideDot.
    + intros _. apply stays_get_bind. intros w. apply restyles_only_attr.
      intros k [v Hk]. left.
      apply lookup_singleton_Some in Hk as [<- _]. set_solver.
Qed.

(** X17: animations only restyle. After any sequence of dot and group
    animations, returning or throwing, the dots table, the out style and
    the tooltip line are those of the start, no element was created or
    removed, every element has the hover handlers it had, and every
    attribute outside the style keys (fill opacity, stroke opacity, stroke
    width, radius, path, stroke and the fields of the out style) has the
    value it had: a dot keeps its centre and its fill. *)
Theorem animations_restyle_only (util : Position → Position → string)
    (acts : list action) (w : world) :
  Forall is_animation acts →
  restyles_only w (run util acts w).
Proof.
  intros Hacts. revert w. induction Hacts as [|a acts Ha _ IH]; intros w.
  - apply restyles_only_refl.
  - rewrite run_cons.
    apply (restyles_only_trans _ (perform util a w).2); [|apply IH].
    by apply restyles_only_perform.
Qed.

Lemma animations_restyle_only_witness :
  let w' := run sample_makeLinePath
              [ShowAnimation (Data.make 2 1); HideGroupAnimation 2;
               ShowGroupAnimation 7 sample_bound; HideAnimation (Data.make 0 0)]
              grid_world in
  (paper w' !! 5 ≫= λ e, attrs e !! "fill") = Some (VString "blue")
  ∧ (paper w' !! 5 ≫= λ e, attrs e !! "cx") = Some (VNumber 90)
  ∧ length (paper w') = 7.
Proof.
  intros w'.
  assert (Hacts : Forall is_animation
            [ShowAnimation (Data.make 2 1); HideGroupAnimation 2;
             ShowGroupAnimation 7 sample_bound; HideAnimation (Data.make 0 0)])
    by (repeat constructor).
  destruct (animations_restyle_only sample_makeLinePath _ grid_world Hacts)
    as (_ & _ & _ & Hlen & _ & Hkeys).
  assert (Hkey : ∀ k, k ∉ ["fill-opacity"; "stroke-opacity"; "stroke-width"; "r";
                           "path"; "stroke"] →
                 outDotStyle grid_world !! k = None → ¬ style_key grid_world k).
  { intros k Hk Hout [H|[v H]]; [done|]. by rewrite Hout in H. }
  fold w' in Hlen, Hkeys. split; [|split].
  - rewrite (Hkeys 5 "fill"); [reflexivity|].
    apply Hkey; [|reflexivity]. apply (bool_decide_unpack _). vm_compute. exact I.
  - rewrite (Hkeys 5 "cx"); [reflexivity|].
    apply Hkey; [|reflexivity]. apply (bool_decide_unpack _). vm_compute. exact I.
  - by rewrite Hlen.
Defined.

(** ** Visiting the dots *)

Lemma visit_app (f : loc → nat → nat → M unit) (xs ys : list (loc * nat * nat))
    (w : world) :
  visit f (xs ++ ys) w = (visit f xs;; visit f ys) w.
Proof.
  revert w. induction xs as [|[[dot g] i] xs IH]; intros w; [done|].
  simpl. unfold mbind, M_bind in *.
  destruct (f dot g i w) as [[[]|e] w1]; [apply IH|done].
Qed.

Lemma visit_row (f : loc → nat → nat → M unit) (g n : nat) (dots : list loc)
    (w : world) :
  TuiUtil.forEachArray_from (λ dot index, f dot g index) n dots w
  = visit f (row_items g n dots) w.
Proof.
  revert n w. induction dots as [|dot dots IH]; intros n w; [done|].
  simpl. unfold mbind, M_bind.
  destruct (f dot g n w) as [[[]|e] w1]; [apply IH|done].
Qed.

Lemma visit_rows (f : loc → nat → nat → M unit) (n : nat)
    (groupDots : list (list loc)) (w : world) :
  TuiUtil.forEachArray_from
    (λ dots groupIndex,
       TuiUtil.forEachArray (Some dots) (λ dot index, f dot groupIndex index))
    n groupDots w
  = visit f (items_from n groupDots) w.
Proof.
  revert n w. induction groupDots as [|dots rest IH]; intros n w; [done|].
  cbn [TuiUtil.forEachArray_from items_from]. rewrite visit_app.
  unfold mbind, M_bind. unfold TuiUtil.forEachArray at 1.
  rewrite visit_row.
  destruct (visit f (row_items n 0 dots) w) as [[[]|e] w1]; [apply IH|done].
Qed.

Lemma elem_of_row_items (g n : nat) (dots : list loc) (l : loc) (g' i : nat) :
  (l, g', i) ∈ row_items g n dots ↔ g' = g ∧ ∃ j, i = n + j ∧ dots !! j = Some l.
Proof.
  revert n. induction dots as [|dot dots IH]; intros n; simpl.
  - rewrite elem_of_nil. split; [done|]. by intros (_ & j & _ & H).
  - rewrite elem_of_cons, IH. split.
    + intros [[= -> -> ->]|(-> & j & -> & Hj)].
      * split; [done|]. exists 0. by rewrite Nat.add_0_r.
      * split; [done|]. exists (S j). split; [lia|done].
    + intros (-> & [|j] & -> & Hj); simpl in Hj.
      * left. injection Hj as ->. by rewrite Nat.add_0_r.
      * right. split; [done|]. exists j. split; [lia|done].
Qed.

Lemma elem_of_items_from (n : nat) (groupDots : list (list loc)) (l : loc) (g i : nat) :
  (l, g, i) ∈ items_from n groupDots
  ↔ ∃ j row, g = n + j ∧ groupDots !! j = Some row ∧ row !! i = Some l.
Proof.
  revert n. induction groupDots as [|dots rest IH]; intros n; simpl.
  - rewrite elem_of_nil. split; [done|]. by intros (j & row & _ & H & _).
  - rewrite elem_of_app, elem_of_row_items, IH. split.
    + intros [(-> & j & -> & Hj)|(j & row & -> & Hrow & Hl)].
      * exists 0, dots. by rewrite Nat.add_0_r.
      * exists (S j), row. split; [lia|done].
    + intros ([|j] & row & -> & Hrow & Hl); simpl in Hrow.
      * left. injection Hrow as ->. rewrite Nat.add_0_r. split; [done|]. by exists i.
      * right. exists j, row. split; [lia|done].
Qed.

Lemma length_row_items (g n : nat) (dots : list loc) :
  length (row_items g n dots) = length dots.
Proof. revert n. induction dots as [|dot dots IH]; intros n; simpl; [done|]. by rewrite IH. Qed.

Lemma length_items_from (n : nat) (groupDots : list (list loc)) :
  length (items_from n groupDots) = length (concat groupDots).
Proof.
  revert n. induction groupDots as [|dots rest IH]; intros n; simpl; [done|].
  by rewrite !length_app, length_row_items, IH.
Qed.

(** X16: [renderItems] calls [funcRenderItem(dot, groupIndex, index)] on
    the dots of [groupDots] group after group and, in a group, point after
    point, stopping at the first call that throws. A triple is visited if
    and only if the dot is [groupDots[groupIndex][index]], the group index
    coming before the point index, and there are as many visits as dots. *)
Theorem renderItems_visits (funcRenderItem : loc → nat → nat → M unit) (w : world) :
  renderItems funcRenderItem w = visit funcRenderItem (items_from 0 (groupDots w)) w
  ∧ (∀ l g i, (l, g, i) ∈ items_from 0 (groupDots w)
       ↔ ∃ row, groupDots w !! g = Some row ∧ row !! i = Some l)
  ∧ length (items_from 0 (groupDots w)) = length (concat (groupDots w)).
Proof.
  split; [|split].
  - unfold renderItems. unfold mbind at 1. unfold M_bind, get.
    unfold TuiUtil.forEachArray at 1. apply visit_rows.
  - intros l g i. rewrite elem_of_items_from. split.
    + intros (j & row & -> & Hrow & Hl). by exists row.
    + intros (row & Hrow & Hl). by exists g, row.
  - apply length_items_from.
Qed.

Example renderItems_ragged :
  items_from 0 [[0; 1]; []; [2; 3; 4]]
  = [(0, 0, 0); (1, 0, 1); (2, 2, 0); (3, 2, 1); (4, 2, 2)].
Proof. reflexivity. Qed.

(** ** The pivot cache over the life of a renderer *)

Lemma same_table_refl (w : world) : same_table w w.
Proof. by split. Qed.

Lemma same_table_trans (w1 w2 w3 : world) :
  same_table w1 w2 → same_table w2 w3 → same_table w1 w3.
Proof. intros [Hg1 Hp1] [Hg2 Hp2]. split; congruence. Qed.

Lemma same_table_attr (dot : option loc) (o : obj) : stays same_table (Raphael.attr dot o).
Proof. intros w. by destruct dot. Qed.

Lemma same_table_showDot (dot : option loc) : stays same_table (_showDot dot).
Proof. apply same_table_attr. Qed.

Lemma same_table_hideDot (dot : option loc) : stays same_table (_hideDot dot).
Proof. apply stays_get_bind. intros w. apply same_table_attr. Qed.

Lemma same_table_showAnimation (data : Data.t) : stays same_table (showAnimation data).
Proof.
  apply stays_get_bind. intros w.
  apply stays_bind;
    [apply same_table_trans | by apply stays_member, same_table_refl |].
  intros dot. apply same_table_showDot.
Qed.

Lemma same_table_hideAnimation (data : Data.t) : stays same_table (hideAnimation data).
Proof.
  apply stays_get_bind. intros w.
  apply stays_bind;
    [apply same_table_trans | by apply stays_member, same_table_refl |].
  intros [l|]; [apply same_table_hideDot | by apply stays_ret, same_table_refl].
Qed.

(** What follows the read of the pivot in a group animation writes
    neither the table nor the cache. *)
Lemma same_table_after {A B} (m : M A) (f : A → M B) (w : world) :
  (∀ a, stays same_table (f a)) → same_table (m w).2 ((m ≫= f) w).2.
Proof.
  intros Hf. unfold mbind, M_bind. destruct (m w) as [[a|e] w1]; simpl.
  - apply Hf.
  - apply same_table_refl.
Qed.

Lemma same_table_showGroupAnimation (util : Position → Position → string)
    (idx : nat) (bound : Bound) (w : world) :
  same_table (_getPivotGroupDots w).2 (showGroupAnimation util idx bound w).2.
Proof.
  apply (same_table_trans _ (_showGroupDots idx w).2).
  - apply same_table_after. intros dots.
    apply stays_bind;
      [apply same_table_trans | by apply stays_member, same_table_refl |].
    intros col. apply stays_forEachArray;
      [apply same_table_refl | apply same_table_trans |].
    intros dot _. apply same_table_showDot.
  - apply (same_table_after (_showGroupDots idx)). intros _.
    apply stays_get_bind. intros w1. apply same_table_attr.
Qed.

Lemma same_table_hideGroupAnimation (idx : nat) (w : world) :
  same_table (_getPivotGroupDots w).2 (hideGroupAnimation idx w).2.
Proof.
  apply (same_table_trans _ (_hideGroupDots idx w).2).
  - apply same_table_after. intros dots.
    apply stays_bind;
      [apply same_table_trans | by apply stays_member, same_table_refl |].
    intros col. apply stays_forEachArray;
      [apply same_table_refl | apply same_table_trans |].
    intros dot _. apply same_table_hideDot.
  - apply (same_table_after (_hideGroupDots idx)). intros _.
    apply stays_get_bind. intros w1. apply same_table_attr.
Qed.

Lemma getPivotGroupDots_table (w : world) :
  groupDots (_getPivotGroupDots w).2 = groupDots w
  ∧ pivotGroupDots (_getPivotGroupDots w).2
    = match pivotGroupDots w with
      | Some p => Some p
      | None => Some (TuiUtil.pivot (groupDots w))
      end.
Proof.
  destruct (pivotGroupDots w) as [p|] eqn:Hp.
  - by rewrite (getPivotGroupDots_cached w p Hp).
  - by rewrite (getPivotGroupDots_first w Hp).
Qed.

Lemma perform_table (util : Position → Position → string) (a : action) (w : world) :
  is_animation a →
  groupDots (perform util a w).2 = groupDots w
  ∧ pivotGroupDots (perform util a w).2
    = match pivotGroupDots w with
      | Some p => Some p
      | None =>
          if is_group_animation a then Some (TuiUtil.pivot (groupDots w)) else None
      end.
Proof.
  destruct a as [| data | data | idx bound | idx]; intros Ha; [done|..];
    cbn [perform is_group_animation].
  - destruct (same_table_showAnimation data w) as [-> ->].
    by destruct (pivotGroupDots w).
  - destruct (same_table_hideAnimation data w) as [-> ->].
    by destruct (pivotGroupDots w).
  - destruct (same_table_showGroupAnimation util idx bound w) as [-> ->].
    apply getPivotGroupDots_table.
  - destruct (same_table_hideGroupAnimation idx w) as [-> ->].
    apply getPivotGroupDots_table.
Qed.

Lemma run_table (util : Position → Position → string) (acts : list action) (w : world) :
  Forall is_animation acts →
  groupDots (run util acts w) = groupDots w
  ∧ pivotGroupDots (run util acts w)
    = match pivotGroupDots w with
      | Some p => Some p
      | None =>
          if existsb is_group_animation acts
          then Some (TuiUtil.pivot (groupDots w)) else None
      end.
Proof.
  intros Hacts. revert w. induction Hacts as [|a acts Ha _ IH]; intros w.
  - change (run util [] w) with w. split; [done|]. by destruct (pivotGroupDots w).
  - rewrite run_cons. destruct (IH (perform util a w).2) as [Hg Hp].
    destruct (perform_table util a w Ha) as [Hg1 Hp1].
    rewrite Hg, Hp, Hg1, Hp1. split; [done|]. cbn [existsb].
    destruct (pivotGroupDots w) as [p|]; [done|].
    by destruct (is_group_animation a).
Qed.

Lemma hideGroupAnimation_cached (w : world) (p : list (list loc)) (idx : nat) :
  pivotGroupDots w = Some p →
  hideGroupAnimation idx w =
    match p !! idx with
    | Some col =>
        (Returned tt,
         set_paper
           (alter (Raphael.write_attrs {[ "stroke-opacity" := VNumber 0 ]})
              (tooltipLine w) (restyle_all (outDotStyle w) col (paper w))) w)
    | None => (Thrown TypeError, w)
    end.
Proof.
  intros Hp. unfold hideGroupAnimation, _hideGroupDots, _hideTooltipLine.
  unfold mbind at 1 2 3. unfold M_bind.
  rewrite (getPivotGroupDots_cached w p Hp). unfold member.
  destruct (p !! idx) as [col|]; run_monad; [|done].
  rewrite forEach_hideDot_run. by run_monad.
Qed.

(** C4 as stated fails: the renderer has no invalidation. Once a group
    animation has filled the cache, replacing [groupDots] leaves the former
    pivot in the cache, and the next group call reads it: here the table
    has one group of two dots and no column 2, yet the pivot read has the
    three columns of the former table and [hideGroupAnimation 2] returns
    after restyling the former column. *)
Lemma pivotGroupDots_stale_after_replacement :
  groupDots replaced_world = [[0; 1]]
  ∧ TuiUtil.pivot (groupDots replaced_world) = [[0]; [1]]
  ∧ (_getPivotGroupDots replaced_world).1
    = Returned (Some [[0; 3]; [1; 4]; [2; 5]])
  ∧ (hideGroupAnimation 2 replaced_world).1 = Returned tt.
Proof. repeat split; vm_compute; reflexivity. Qed.

(** C4, amended: over any sequence of dot and group animations the table
    of dots is not replaced; the pivot cache stays empty until the first
    group animation, which stores the index transpose of [groupDots], also
    when that call throws; a filled cache is never recomputed or cleared,
    whatever it holds: the getter hands it out with no write, and a group
    hide styles the column of the cached pivot. So the pivot read is the
    transpose of the current [groupDots] whenever the cache was empty or in
    step at the start. *)
Theorem pivotGroupDots_cache (util : Position → Position → string)
    (w : world) (acts : list action) :
  Forall is_animation acts →
  let w' := run util acts w in
  groupDots w' = groupDots w
  ∧ (∀ p, pivotGroupDots w = Some p → pivotGroupDots w' = Some p)
  ∧ (pivotGroupDots w = None →
     pivotGroupDots w'
     = if existsb is_group_animation acts
       then Some (TuiUtil.pivot (groupDots w)) else None)
  ∧ (∀ p, pivotGroupDots w' = Some p →
       _getPivotGroupDots w' = (Returned (Some p), w')
       ∧ ∀ idx, paper (hideGroupAnimation idx w').2
           = match p !! idx with
             | Some col =>
                 alter (Raphael.write_attrs {[ "stroke-opacity" := VNumber 0 ]})
                   (tooltipLine w') (restyle_all (outDotStyle w') col (paper w'))
             | None => paper w'
             end)
  ∧ (pivot_consistent w →
     pivot_consistent w'
     ∧ (_getPivotGroupDots w').1 = Returned (Some (TuiUtil.pivot (groupDots w')))).
Proof.
  intros Hacts w'. destruct (run_table util acts w Hacts) as [Hg Hp].
  fold w' in Hg, Hp.
  split; [done|]. split; [|split; [|split]].
  - intros p Hw. by rewrite Hp, Hw.
  - intros Hw. by rewrite Hp, Hw.
  - intros p Hw'. split; [by apply getPivotGroupDots_cached|].
    intros idx. rewrite (hideGroupAnimation_cached w' p idx Hw').
    by destruct (p !! idx).
  - intros Hw.
    assert (Hw' : pivot_consistent w').
    { intros p Hw'. rewrite Hg. rewrite Hp in Hw'.
      destruct (pivotGroupDots w) as [q|] eqn:Hq.
      - injection Hw' as <-. by apply Hw.
      - destruct (existsb is_group_animation acts); congruence. }
    split; [done|]. by apply getPivotGroupDots_consistent.
Qed.

(** On [grid_world], whose cache is empty: a dot animation leaves it
    empty, the first group animation fills it, and it stays as filled. *)
Lemma pivotGroupDots_cache_witness :
  pivotGroupDots (run sample_makeLinePath [ShowAnimation (Data.make 2 1)] grid_world)
  = None
  ∧ pivotGroupDots
      (run sample_makeLinePath
         [ShowAnimation (Data.make 2 1); HideGroupAnimation 7;
          ShowGroupAnimation 0 sample_bound] grid_world)
    = Some [[0; 3]; [1; 4]; [2; 5]].
Proof.
  assert (H1 : Forall is_animation [ShowAnimation (Data.make 2 1)])
    by (repeat constructor).
  assert (H2 : Forall is_animation
                 [ShowAnimation (Data.make 2 1); HideGroupAnimation 7;
                  ShowGroupAnimation 0 sample_bound])
    by (repeat constructor).
  destruct (pivotGroupDots_cache sample_makeLinePath grid_world _ H1)
    as (_ & _ & Hfirst & _).
  destruct (pivotGroupDots_cache sample_makeLinePath grid_world _ H2)
    as (_ & _ & Hlater & _).
  split; [exact (Hfirst eq_refl) | exact (Hlater eq_refl)].
Defined.

(** ** Names Raphael does not know *)

Lemma known_names_of_accepted (o : obj) : Raphael.accepted o = o → known_names o.
Proof.
  intros Ho k [v Hk]. rewrite <- Ho in Hk.
  by apply map_lookup_filter_Some_1_2 in Hk.
Qed.

(** The out styles this renderer makes have Raphael attribute names only. *)
Lemma makeOutDotStyle_known_names (borderColor opacity borderOpacity : value) :
  known_names (makeOutDotStyle opacity (makeBorderStyle borderColor borderOpacity)).
Proof.
  apply known_names_of_accepted. unfold makeBorderStyle.
  destruct (truthy borderColor); reflexivity.
Qed.

(** A field with a name Raphael does not know is skipped by [attr]. *)
Example attr_skips_unknown_names :
  attrs (Raphael.write_attrs {[ "foo" := VNumber 7; "fill-opacity" := VNumber 0.5 ]}
           (Element ∅ []))
  = {[ "fill-opacity" := VNumber 0.5 ]}.
Proof. vm_compute. reflexivity. Qed.
